(** * Mission Control: the state machine, the socket gateway and its auth gate

    A shallow embedding of [app/state/index.js] (action registry, dispatcher,
    event bus), [app/socket/index.js] (the gateway relaying events to socket
    clients) and [app/socket/auth.js] (the per-connection authentication
    gate), together with the properties the specification states about them;
    and, for the further properties at the end, of the actions of the Bahn
    and Spotify services, of the session routes of [app/http/auth.js] and of
    the action list of [app/state/actions/index.js].

    Conventions of the embedding.
    - JavaScript values are the JSON data the modules exchange: immutable
      trees.  Objects are association lists in property enumeration order.
      Reference identity and in-place mutation are modelled separately, on an
      explicit heap, in the last part of the definitions.
    - The module-level variables of the three files ([actions], [state], the
      emitter's listener tables, the socket.io connection tables) are the
      fields of one record [world]; every function threads it.
    - Every observable call (a log line, the assignment to [state], an
      [emitter.emit], a [socket.emit], a [clearTimeout], a
      [socket.disconnect]) is appended to the chronological list [effects].
    - The packages the code requires but does not contain are parameters:
      [diff] (object-diff), [matches] (the topic matching of eventemitter2)
      and [jwt_verify] (jsonwebtoken with the configured secret, issuer and
      audience). *)

From Stdlib Require Import ZArith String Ascii List Bool Lia DecimalString.
From stdpp Require Import gmap strings list.

#[local] Set Warnings "-register-all".
Open Scope string_scope.
Open Scope list_scope.

(** ** JavaScript values *)

Inductive value : Type :=
| VUndefined
| VNull
| VBool (b : bool)
| VNumber (n : Z)
| VString (s : string)
| VArray (items : list value)
| VObject (props : list (string * value)).

(** ToBoolean: [undefined], [null], [false], [0] and [''] are falsy. *)
Definition truthy (v : value) : bool :=
  match v with
  | VUndefined | VNull => false
  | VBool b => b
  | VNumber n => negb (n =? 0)%Z
  | VString s => negb (String.eqb s "")
  | VArray _ | VObject _ => true
  end.

Fixpoint lookup_prop (k : string) (props : list (string * value)) : option value :=
  match props with
  | [] => None
  | (k', v) :: rest => if String.eqb k k' then Some v else lookup_prop k rest
  end.

(** [v.name] and the destructuring [({name}) => ...] for the field names the
    handlers use ([token], [action], [data], [event], none of which is a
    member of a prototype): the own property, or [undefined]. *)
Definition get_field (v : value) (name : string) : value :=
  match v with
  | VObject props => default VUndefined (lookup_prop name props)
  | _ => VUndefined
  end.

(** Destructuring a parameter throws a TypeError on [undefined] and [null]. *)
Definition destructurable (v : value) : bool :=
  match v with
  | VUndefined | VNull => false
  | _ => true
  end.

Definition index_key (i : nat) : string :=
  NilEmpty.string_of_uint (Nat.to_uint i).

Fixpoint indexed {A} (f : A -> value) (i : nat) (l : list A) : list (string * value) :=
  match l with
  | [] => []
  | x :: rest => (index_key i, f x) :: indexed f (S i) rest
  end.

Definition chars (s : string) : list ascii := list_ascii_of_string s.

(** The own enumerable properties of a value, in enumeration order: what
    [Object.assign] copies from a source and [Object.keys] lists. *)
Definition own_props (v : value) : list (string * value) :=
  match v with
  | VObject props => props
  | VArray items => indexed (fun x => x) 0 items
  | VString s => indexed (fun c => VString (String c EmptyString)) 0 (chars s)
  | _ => []
  end.

(** [Object.assign({}, source)]. *)
Definition Object_assign_empty (source : value) : value :=
  VObject (own_props source).

Definition Object_keys (props : list (string * value)) : list string :=
  map fst props.

(** The names every plain object inherits from [Object.prototype]; the [in]
    operator sees them. *)
Definition Object_prototype_names : list string :=
  [ "constructor"; "__defineGetter__"; "__defineSetter__"; "hasOwnProperty";
    "__lookupGetter__"; "__lookupSetter__"; "isPrototypeOf";
    "propertyIsEnumerable"; "toString"; "valueOf"; "__proto__";
    "toLocaleString" ].

Definition inherited (k : string) : bool :=
  existsb (String.eqb k) Object_prototype_names.

(** [String.prototype.toUpperCase] on ASCII strings; other code units are
    kept as they are. *)
Definition upper_ascii (c : ascii) : ascii :=
  let n := nat_of_ascii c in
  if (97 <=? n)%nat && (n <=? 122)%nat then ascii_of_nat (n - 32) else c.

Fixpoint toUpperCase (s : string) : string :=
  match s with
  | EmptyString => EmptyString
  | String c rest => String (upper_ascii c) (toUpperCase rest)
  end.

(** [v.toUpperCase()]: only a string has the method; on every other JSON
    value the property is missing or not callable and the call throws. *)
Definition call_toUpperCase (v : value) : option string :=
  match v with
  | VString s => Some (toUpperCase s)
  | _ => None
  end.

(** Whether the template literal [`${v}`] completes.  An object with an own
    [toString] property (JSON data is never callable) cannot be converted to
    a primitive; an array joins the conversions of its items, skipping
    [undefined] and [null]. *)
Fixpoint template_ok (v : value) : bool :=
  match v with
  | VObject props => negb (existsb (fun p => String.eqb (fst p) "toString") props)
  | VArray items => forallb template_ok items
  | _ => true
  end.

(** ** The shared state of the three modules *)

(** A registered action: [actions[id] = { reducer, validate }]. *)
Record action : Type := Action {
  reducer : value -> value -> value;
  validate : value -> value
}.

(** The listener functions handed to [subscribe]: the two relays the gateway
    creates for a client, and the listeners of in-process services. *)
Inductive callback : Type :=
| relaySingleEvent (client event : string)
| relayAllEvents (client : string)
| serviceListener (n : nat).

(** One registration in the emitter; [l_id] stands for the identity of the
    function object, fresh for every call of [subscribe]. *)
Record listener : Type := Listener {
  l_id : nat;
  l_event : string;
  l_callback : callback
}.

Inductive origin : Type := FromAuthGate | FromGateway | FromRelay | FromBroadcast.

(** A [socket.emit(event, ...args)] on a client socket; [msg_ack] tells that
    the acknowledgement callback [() => socket.disconnect()] was passed. *)
Record message : Type := Message {
  msg_origin : origin;
  msg_event : string;
  msg_args : list value;
  msg_ack : bool
}.

Inductive log_entry : Type :=
| LogRunningAction (actionKey data : value)
| LogActionNotFound (actionKey : string)
| LogActionInvalid (actionKey : string)
| LogClientConnected
| LogClientRequested (requested : value)
| LogClientSubscribed (event : string)
| LogClientUnsubscribing (event : string)
| LogClientDisconnected
| LogNotAuthorized.

Inductive effect : Type :=
| Log (entry : log_entry)
| SetState (snapshot : value)
| Emit (topic : string) (payload : value)
| Invoke (n : nat) (args : list value)
| SocketEmit (client : string) (m : message)
| ClearTimeout (client : string)
| SocketDisconnect (client : string).

(** The timer behind [authTimeoutId]: not set yet, running, cancelled by
    [clearTimeout], or run. *)
Inductive timer : Type := Unset | Armed | Cleared | Fired.

(** The [subscriptions] object of one run of the gateway's connection
    callback: event name to unsubscribe handle, the handle being the pair of
    the event (the key) and the identity of the relay it removes. *)
Definition subscriptions : Type := list (string * nat).

(** A socket.io socket with what the two socket modules hang on it.
    [sessions] has one entry per run of the gateway callback for this socket
    (its closure variable [subscriptions], [None] once set to [null]);
    [acks] counts the [unauthorized] messages whose acknowledgement has not
    come yet; [open] is false once the transport is closed. *)
Record socket : Type := Socket {
  authenticated : bool;
  authTimeout : timer;
  sessions : list (option subscriptions);
  acks : nat;
  open : bool;
  jwt : option value;
  jwtPayload : option value
}.

(** A socket.io namespace: the ids in [namespace.sockets] and in
    [namespace.connected]; a broadcast on the namespace goes to the latter. *)
Record namespace : Type := Namespace {
  ns_sockets : gset string;
  ns_connected : gset string
}.

Record world : Type := World {
  actions : gmap string action;
  state : value;
  on_listeners : list listener;
  any_listeners : list listener;
  next_listener : nat;
  sockets : gmap string socket;
  nsps : gmap string namespace;
  effects : list effect
}.

Definition with_actions (a : gmap string action) (w : world) : world :=
  World a (state w) (on_listeners w) (any_listeners w) (next_listener w)
        (sockets w) (nsps w) (effects w).

Definition with_state (s : value) (w : world) : world :=
  World (actions w) s (on_listeners w) (any_listeners w) (next_listener w)
        (sockets w) (nsps w) (effects w).

Definition with_listeners (ons anys : list listener) (next : nat) (w : world) : world :=
  World (actions w) (state w) ons anys next (sockets w) (nsps w) (effects w).

Definition with_sockets (s : gmap string socket) (w : world) : world :=
  World (actions w) (state w) (on_listeners w) (any_listeners w) (next_listener w)
        s (nsps w) (effects w).

Definition with_nsps (n : gmap string namespace) (w : world) : world :=
  World (actions w) (state w) (on_listeners w) (any_listeners w) (next_listener w)
        (sockets w) n (effects w).

Definition with_effects (l : list effect) (w : world) : world :=
  World (actions w) (state w) (on_listeners w) (any_listeners w) (next_listener w)
        (sockets w) (nsps w) l.

Definition perform (e : effect) (w : world) : world :=
  with_effects (effects w ++ [e]) w.

(** The [emitter.emit] calls and the assignments to [state] among a list of
    effects. *)
Definition publishes (l : list effect) : list (string * value) :=
  omap (fun e => match e with Emit topic payload => Some (topic, payload) | _ => None end) l.

Definition assignments (l : list effect) : list value :=
  omap (fun e => match e with SetState s => Some s | _ => None end) l.

(** How a call ends. *)
Inductive outcome : Type := Returned | Threw_TypeError.

(** [socket.emit(event, ...args)] on the socket of [client]. *)
Definition socket_emit (client : string) (m : message) (w : world) : world :=
  perform (SocketEmit client m) w.

(** The messages the gateway and the auth gate send. *)
Definition initial_state_message (snapshot : value) : message :=
  Message FromGateway "initial-state" [VObject [("state", snapshot)]] false.

Definition authenticated_message : message :=
  Message FromAuthGate "authenticated" [] false.

Definition unauthorized_message (reason : string) : message :=
  Message FromAuthGate "unauthorized" [VObject [("type", VString reason)]] true.

(** What calling a listener with the arguments [args] does: a relay emits on
    the socket of its client, [relaySingleEvent] its first argument under
    the subscribed name, [relayAllEvents] both under [all-events]. *)
Definition call (cb : callback) (args : list value) : effect :=
  match cb with
  | relaySingleEvent client event =>
      SocketEmit client (Message FromRelay event [nth 0 args VUndefined] false)
  | relayAllEvents client =>
      SocketEmit client
        (Message FromRelay "all-events"
           [VObject [("event", nth 0 args VUndefined);
                     ("data", nth 1 args VUndefined)]] false)
  | serviceListener n => Invoke n args
  end.

Definition invoke (cb : callback) (args : list value) (w : world) : world :=
  perform (call cb args) w.

(** ** app/state/index.js *)

Section StateMachine.

(** [require('object-diff')]. *)
Variable diff : value -> value -> list (string * value).

(** The emitter is built with [wildcard: true, delimiter: ':']:
    [matches pattern topic] tells whether a listener added under [pattern]
    hears an emit of [topic]. *)
Variable matches : string -> string -> bool.

(** [emitter.emit(topic, payload)]: the [onAny] listeners get the topic
    and the payload, then the listeners whose pattern matches get the
    payload. *)
Definition emit (topic : string) (payload : value) (w : world) : world :=
  let w1 := perform (Emit topic payload) w in
  let w2 := fold_left (fun acc l => invoke (l_callback l) [VString topic; payload] acc)
                      (any_listeners w) w1 in
  fold_left (fun acc l => invoke (l_callback l) [payload] acc)
            (List.filter (fun l => matches (l_event l) topic) (on_listeners w)) w2.

(** [actions[action] = { reducer, validate }].  Assigning to ['__proto__']
    sets the prototype instead of creating an own property. *)
Definition registerReducer (id : string) (r : value -> value -> value)
    (v : value -> value) (w : world) : world :=
  if String.eqb id "__proto__" then w
  else with_actions (<[id := Action r v]> (actions w)) w.

(** [subscribe(event, callback)]; the result carries the identity of the
    registration, which the returned unsubscribe function closes over. *)
Definition subscribe (event : string) (cb : callback) (w : world) : world * nat :=
  let id := next_listener w in
  let l := Listener id event cb in
  if String.eqb event "*"
  then (with_listeners (on_listeners w) (any_listeners w ++ [l]) (S id) w, id)
  else (with_listeners (on_listeners w ++ [l]) (any_listeners w) (S id) w, id).

(** Calling the function [subscribe] returned. *)
Definition unsubscribe (event : string) (id : nat) (w : world) : world :=
  let keep := fun l => negb (Nat.eqb (l_id l) id) in
  if String.eqb event "*"
  then with_listeners (on_listeners w) (List.filter keep (any_listeners w)) (next_listener w) w
  else with_listeners
         (List.filter (fun l => keep l || negb (String.eqb (l_event l) event)) (on_listeners w))
         (any_listeners w) (next_listener w) w.

(** [actionKey in actions]. *)
Definition in_actions (actionKey : string) (w : world) : bool :=
  bool_decide (is_Some (actions w !! actionKey)) || inherited actionKey.

Definition update_key_payload (stateDiff : list (string * value)) : value :=
  VObject [("state", VObject stateDiff)].

Definition update_payload (stateDiff : list (string * value)) (actionKey : string) : value :=
  VObject [("state", VObject stateDiff);
           ("action", VString actionKey);
           ("diff", VArray (map VString (Object_keys stateDiff)))].

Definition action_payload (newState : value) (stateDiff : list (string * value))
    (actionKey : string) (data : value) : value :=
  VObject [("state", newState);
           ("action", VString actionKey);
           ("actionData", data);
           ("diff", VArray (map VString (Object_keys stateDiff)))].

Definition callAction (actionKey data : value) (w : world) : world * outcome :=
  if negb (template_ok actionKey) then (w, Threw_TypeError) else
  let w := perform (Log (LogRunningAction actionKey data)) w in
  match call_toUpperCase actionKey with
  | None => (w, Threw_TypeError)
  | Some actionKey =>
    if negb (in_actions actionKey w)
    then (perform (Log (LogActionNotFound actionKey)) w, Returned)
    else
      match actions w !! actionKey with
      | None => (w, Threw_TypeError)
      | Some action =>
        if negb (truthy (validate action data))
        then (perform (Log (LogActionInvalid actionKey)) w, Returned)
        else
          let oldState := state w in
          let newState := reducer action oldState data in
          let w := perform (SetState (Object_assign_empty newState))
                           (with_state (Object_assign_empty newState) w) in
          let stateDiff := diff oldState newState in
          let w := fold_left
                     (fun acc changedKey =>
                        emit ("update:" +:+ changedKey) (update_key_payload stateDiff) acc)
                     (Object_keys stateDiff) w in
          let w := emit "update" (update_payload stateDiff actionKey) w in
          let w := emit ("action:" +:+ actionKey)
                        (action_payload newState stateDiff actionKey data) w in
          (w, Returned)
      end
  end.

Definition emitEvent (event : string) (data : value) (w : world) : world :=
  emit event data w.

Definition getState (w : world) : value := state w.

End StateMachine.

(** ** app/socket/auth.js and app/socket/index.js *)

(** What socket.io does around the handlers of the two modules is written
    out where it matters: a connecting client gets a socket object with a
    fresh id, which is entered in [sockets] and [connected] of the namespace
    before the namespace's [connect] and then [connection] listeners run; a
    closing socket leaves both tables before its [disconnect] listeners run.
    As [restoreNamespaceConnection] does, the model identifies the socket of
    a client in every namespace by its id. *)

Definition set_authenticated (b : bool) (s : socket) : socket :=
  Socket b (authTimeout s) (sessions s) (acks s) (open s) (jwt s) (jwtPayload s).

Definition set_authTimeout (t : timer) (s : socket) : socket :=
  Socket (authenticated s) t (sessions s) (acks s) (open s) (jwt s) (jwtPayload s).

Definition set_sessions (l : list (option subscriptions)) (s : socket) : socket :=
  Socket (authenticated s) (authTimeout s) l (acks s) (open s) (jwt s) (jwtPayload s).

Definition set_acks (n : nat) (s : socket) : socket :=
  Socket (authenticated s) (authTimeout s) (sessions s) n (open s) (jwt s) (jwtPayload s).

Definition set_open (b : bool) (s : socket) : socket :=
  Socket (authenticated s) (authTimeout s) (sessions s) (acks s) b (jwt s) (jwtPayload s).

Definition set_jwt (token payload : value) (s : socket) : socket :=
  Socket (authenticated s) (authTimeout s) (sessions s) (acks s) (open s)
         (Some token) (Some payload).

Definition update_socket (c : string) (f : socket -> socket) (w : world) : world :=
  with_sockets (alter f c (sockets w)) w.

(** [clearTimeout] stops a running timer and does nothing otherwise. *)
Definition clearTimeout (t : timer) : timer :=
  match t with
  | Armed => Cleared
  | _ => t
  end.

Definition new_socket : socket := Socket false Unset [] 0 true None None.

Definition ns_enter (c : string) (ns : namespace) : namespace :=
  Namespace ({[c]} ∪ ns_sockets ns) ({[c]} ∪ ns_connected ns).

Definition ns_leave (c : string) (ns : namespace) : namespace :=
  Namespace (ns_sockets ns ∖ {[c]}) (ns_connected ns ∖ {[c]}).

(** The [connect] listener that [forbidNamespaceConnections] puts on every
    namespace, run for the socket [c] connecting to the namespace [ns]. *)
Definition forbidNamespaceConnections (ns c : string) (w : world) : world :=
  match sockets w !! c with
  | Some s =>
      if negb (authenticated s)
      then with_nsps (alter (fun n => Namespace (ns_sockets n) (ns_connected n ∖ {[c]}))
                            ns (nsps w)) w
      else w
  | None => w
  end.

Definition restoreNamespaceConnection (c : string) (w : world) : world :=
  with_nsps
    ((fun n => if bool_decide (c ∈ ns_sockets n)
               then Namespace (ns_sockets n) ({[c]} ∪ ns_connected n)
               else n) <$> nsps w) w.

(** [event in subscriptions]. *)
Definition in_subscriptions (event : string) (subs : subscriptions) : bool :=
  existsb (fun p => String.eqb (fst p) event) subs || inherited event.

Fixpoint lookup_handle (event : string) (subs : subscriptions) : option nat :=
  match subs with
  | [] => None
  | (k, h) :: rest => if String.eqb k event then Some h else lookup_handle event rest
  end.

Definition delete_handle (event : string) (subs : subscriptions) : subscriptions :=
  List.filter (fun p => negb (String.eqb (fst p) event)) subs.

(** Calling, without arguments, the member of [Object.prototype] that
    [subscriptions[event]] yields for an inherited name: the accessor
    [__proto__] yields an object, and the two definers reject a missing
    function. *)
Definition inherited_call_throws (event : string) : bool :=
  existsb (String.eqb event) ["__proto__"; "__defineGetter__"; "__defineSetter__"].

Definition session_of (c : string) (i : nat) (w : world) : option (option subscriptions) :=
  s ← sockets w !! c; sessions s !! i.

Definition set_session (c : string) (i : nat) (subs : option subscriptions) (w : world) : world :=
  update_socket c (fun s => set_sessions (<[i := subs]> (sessions s)) s) w.

(** Running the listeners a socket event has, one per run of the gateway
    callback, in the order they were added; a throw ends the run. *)
Fixpoint for_each (idx : list nat) (h : nat -> world -> world * outcome) (w : world)
    : world * outcome :=
  match idx with
  | [] => (w, Returned)
  | i :: rest =>
      match h i w with
      | (w', Returned) => for_each rest h w'
      | (w', Threw_TypeError) => (w', Threw_TypeError)
      end
  end.

Definition session_indices (c : string) (w : world) : list nat :=
  match sockets w !! c with
  | Some s => seq 0 (length (sessions s))
  | None => []
  end.

(** What happens to the server: socket.io reports a connection to the root
    namespace or to another one, a message of a client, the acknowledgement
    of an [unauthorized] message, a closed transport; the timer of a socket
    runs out; something in the process broadcasts on a namespace, registers
    an action, calls an action, subscribes or emits. *)
Inductive event : Type :=
| Connect (c : string)
| NamespaceConnect (ns c : string)
| Authenticate (c : string) (payload : value)
| ClientAction (c : string) (payload : value)
| ClientSubscribe (c name : string)
| ClientUnsubscribe (c name : string)
| Acknowledge (c : string)
| Disconnect (c : string)
| Timeout (c : string)
| Broadcast (ns name : string) (data : value)
| Register (id : string) (r : value -> value -> value) (v : value -> value)
| ServiceCall (actionKey data : value)
| ServiceSubscribe (name : string) (n : nat)
| ServiceEmit (name : string) (data : value).

Section Gateway.

Variable diff : value -> value -> list (string * value).
Variable matches : string -> string -> bool.

(** [jwt.verify(token, config.auth.secret, { issuer, audience })]: the
    payload, or [None] when it throws. *)
Variable jwt_verify : value -> option value.

(** The callback [socket] hands to [socketAuth], up to the [client.on]
    calls: a new [subscriptions] object and the [initial-state] message. *)
Definition onAuthentication (c : string) (w : world) : world :=
  let w := update_socket c (fun s => set_sessions (sessions s ++ [Some []]) s) w in
  let w := perform (Log LogClientConnected) w in
  socket_emit c (initial_state_message (getState w)) w.

(** [client.on('action', ({ action, data }) => ...)]. *)
Definition on_action (payload : value) (w : world) : world * outcome :=
  if negb (destructurable payload) then (w, Threw_TypeError) else
  let action := get_field payload "action" in
  let data := get_field payload "data" in
  if negb (template_ok action) then (w, Threw_TypeError) else
  callAction diff matches action data (perform (Log (LogClientRequested action)) w).

(** [client.on('subscribe', ({ event }) => ...)] of run [i] for client [c]. *)
Definition on_subscribe (c : string) (event : string) (i : nat) (w : world)
    : world * outcome :=
  match session_of c i w with
  | Some (Some subs) =>
      if in_subscriptions event subs then (w, Returned) else
      let w := perform (Log (LogClientSubscribed event)) w in
      let relayEvent :=
        if String.eqb event "*" then relayAllEvents c else relaySingleEvent c event in
      let '(w, handle) := subscribe event relayEvent w in
      (set_session c i (Some (subs ++ [(event, handle)])) w, Returned)
  | Some None => (w, Threw_TypeError)
  | None => (w, Returned)
  end.

(** [client.on('unsubscribe', ({ event }) => ...)]. *)
Definition on_unsubscribe (c : string) (event : string) (i : nat) (w : world)
    : world * outcome :=
  match session_of c i w with
  | Some (Some subs) =>
      if negb (in_subscriptions event subs) then (w, Returned) else
      let w := perform (Log (LogClientUnsubscribing event)) w in
      match lookup_handle event subs with
      | Some handle =>
          (set_session c i (Some (delete_handle event subs)) (unsubscribe event handle w),
           Returned)
      | None =>
          if inherited_call_throws event then (w, Threw_TypeError) else (w, Returned)
      end
  | Some None => (w, Threw_TypeError)
  | None => (w, Returned)
  end.

(** [client.on('disconnect', () => ...)]. *)
Definition on_disconnect (c : string) (i : nat) (w : world) : world * outcome :=
  let w := perform (Log LogClientDisconnected) w in
  match session_of c i w with
  | Some (Some subs) =>
      (set_session c i None
         (fold_left (fun acc p => unsubscribe (fst p) (snd p) acc) subs w), Returned)
  | Some None => (w, Threw_TypeError)
  | None => (w, Returned)
  end.

(** The [connection] listener of [socketAuth]. *)
Definition on_connection (c : string) (w : world) : world :=
  update_socket c (fun s => set_authenticated false (set_authTimeout Armed s)) w.

(** The function given to [setTimeout]. *)
Definition on_timeout (c : string) (w : world) : world :=
  socket_emit c (unauthorized_message "TIMEOUT")
    (update_socket c (fun s => set_acks (S (acks s)) s) w).

(** [socket.on('authenticate', ({ token }) => ...)]. *)
Definition on_authenticate (c : string) (payload : value) (w : world) : world * outcome :=
  if negb (destructurable payload) then (w, Threw_TypeError) else
  let token := get_field payload "token" in
  let w := perform (ClearTimeout c)
             (update_socket c (fun s => set_authTimeout (clearTimeout (authTimeout s)) s) w) in
  match jwt_verify token with
  | Some payload =>
      let w := update_socket c (set_jwt token payload) w in
      let w := update_socket c (set_authenticated true) w in
      let w := onAuthentication c w in
      let w := restoreNamespaceConnection c w in
      (socket_emit c authenticated_message w, Returned)
  | None =>
      let w := perform (Log LogNotAuthorized) w in
      (socket_emit c (unauthorized_message "INVALID_TOKEN")
         (update_socket c (fun s => set_acks (S (acks s)) s) w), Returned)
  end.

(** A socket closes (the transport goes away, or [socket.disconnect()]). *)
Definition close (c : string) (w : world) : world * outcome :=
  let w := with_nsps (ns_leave c <$> nsps w) w in
  let w := update_socket c (set_open false) w in
  for_each (session_indices c w) (on_disconnect c) w.

Definition is_open (c : string) (w : world) : bool :=
  match sockets w !! c with
  | Some s => open s
  | None => false
  end.

Definition process (e : event) (w : world) : world * outcome :=
  match e with
  | Connect c =>
      match sockets w !! c with
      | Some _ => (w, Returned)
      | None =>
          let w := with_sockets (<[c := new_socket]> (sockets w)) w in
          let w := with_nsps (alter (ns_enter c) "/" (nsps w)) w in
          let w := forbidNamespaceConnections "/" c w in
          (on_connection c w, Returned)
      end
  | NamespaceConnect ns c =>
      if is_open c w
      then (forbidNamespaceConnections ns c (with_nsps (alter (ns_enter c) ns (nsps w)) w), Returned)
      else (w, Returned)
  | Authenticate c payload =>
      if is_open c w then on_authenticate c payload w else (w, Returned)
  | ClientAction c payload =>
      if is_open c w
      then for_each (session_indices c w) (fun _ => on_action payload) w
      else (w, Returned)
  | ClientSubscribe c name =>
      if is_open c w
      then for_each (session_indices c w) (on_subscribe c name) w
      else (w, Returned)
  | ClientUnsubscribe c name =>
      if is_open c w
      then for_each (session_indices c w) (on_unsubscribe c name) w
      else (w, Returned)
  | Acknowledge c =>
      match sockets w !! c with
      | Some s =>
          match acks s with
          | S n =>
              if open s
              then close c (perform (SocketDisconnect c)
                              (update_socket c (set_acks n) w))
              else (w, Returned)
          | O => (w, Returned)
          end
      | None => (w, Returned)
      end
  | Disconnect c =>
      if is_open c w then close c w else (w, Returned)
  | Timeout c =>
      match sockets w !! c with
      | Some s =>
          match authTimeout s with
          | Armed => (on_timeout c (update_socket c (set_authTimeout Fired) w), Returned)
          | _ => (w, Returned)
          end
      | None => (w, Returned)
      end
  | Broadcast ns name data =>
      match nsps w !! ns with
      | Some n =>
          (fold_left
             (fun acc c => socket_emit c (Message FromBroadcast name [data] false) acc)
             (elements (ns_connected n)) w, Returned)
      | None => (w, Returned)
      end
  | Register id r v => (registerReducer id r v w, Returned)
  | ServiceCall actionKey data => callAction diff matches actionKey data w
  | ServiceSubscribe name n => (fst (subscribe name (serviceListener n) w), Returned)
  | ServiceEmit name data => (emitEvent matches name data w, Returned)
  end.

(** The server handles the events one after the other; an exception ends
    the handling of its event only. *)
Definition run (es : list event) (w : world) : world :=
  fold_left (fun acc e => fst (process e acc)) es w.

End Gateway.

(** The server before anything has happened: [initial] is what
    [./initial-state] exports, [names] are the namespaces that exist besides
    the root one when [socketAuth] is called. *)
Definition init (initial : value) (names : gset string) : world :=
  World ∅ initial [] [] 0 ∅
        (gset_to_gmap (Namespace ∅ ∅) ({["/"]} ∪ names)) [].

(** ** The diff engine *)

(** Deep equality of two values. *)
Fixpoint value_eqb (a b : value) : bool :=
  match a, b with
  | VUndefined, VUndefined => true
  | VNull, VNull => true
  | VBool x, VBool y => Bool.eqb x y
  | VNumber x, VNumber y => (x =? y)%Z
  | VString x, VString y => String.eqb x y
  | VArray xs, VArray ys =>
      (fix items_eqb (xs ys : list value) : bool :=
         match xs, ys with
         | [], [] => true
         | x :: xs', y :: ys' => value_eqb x y && items_eqb xs' ys'
         | _, _ => false
         end) xs ys
  | VObject ps, VObject qs =>
      (fix props_eqb (ps qs : list (string * value)) : bool :=
         match ps, qs with
         | [], [] => true
         | (k, x) :: ps', (l, y) :: qs' =>
             String.eqb k l && value_eqb x y && props_eqb ps' qs'
         | _, _ => false
         end) ps qs
  | _, _ => false
  end.

(** The value a snapshot has under a top-level key, [undefined] when the key
    is absent. *)
Definition top_level (snapshot : value) (k : string) : value :=
  default VUndefined (lookup_prop k (own_props snapshot)).

(** Modelled from the spec: the diff engine [diff(oldSnapshot, newSnapshot)],
    which the code takes from the package object-diff.  For each top-level
    key present in either snapshot, the key is in the result, mapped to its
    new value, if its value differs by deep equality between old and new; a
    key removed from new is reported with [undefined]. *)
Definition DiffEngine (oldSnapshot newSnapshot : value) : list (string * value) :=
  let new_keys := Object_keys (own_props newSnapshot) in
  let removed := List.filter (fun k => negb (existsb (String.eqb k) new_keys))
                        (Object_keys (own_props oldSnapshot)) in
  map (fun k => (k, top_level newSnapshot k))
      (List.filter (fun k => negb (value_eqb (top_level oldSnapshot k) (top_level newSnapshot k)))
              (new_keys ++ removed)).

(** ** The snapshot as an object on the heap *)

(** The part of [callAction] that takes the new state from the reducer and
    assigns the module variable [state], with objects as mutable records on
    a heap and values that may point to them. *)
Inductive ref_value : Type :=
| Prim (v : value)
| Ref (l : nat).

Definition heap_object : Type := list (string * ref_value).

(** Location [l] is position [l] of the list. *)
Definition heap : Type := list heap_object.

Definition alloc (o : heap_object) (h : heap) : heap * nat := (h ++ [o], length h).

Fixpoint assign_prop {A} (k : string) (v : A) (o : list (string * A)) : list (string * A) :=
  match o with
  | [] => [(k, v)]
  | (k', v') :: rest =>
      if String.eqb k k' then (k, v) :: rest else (k', v') :: assign_prop k v rest
  end.

(** [object.k = v] for the object at [l]. *)
Definition heap_write (l : nat) (k : string) (v : ref_value) (h : heap) : heap :=
  match h !! l with
  | Some o => <[l := assign_prop k v o]> h
  | None => h
  end.

Definition heap_props (source : ref_value) (h : heap) : heap_object :=
  match source with
  | Ref l => default [] (h !! l)
  | Prim v => map (fun p => (fst p, Prim (snd p))) (own_props v)
  end.

(** [Object.assign({}, source)]: a new object with the properties of the
    source; the property values are copied as they are, references
    included. *)
Definition heap_Object_assign_empty (source : ref_value) (h : heap) : heap * nat :=
  alloc (heap_props source h) h.

Record store : Type := Store {
  st_heap : heap;
  st_state : ref_value
}.

(** Lines 131 to 138 of [callAction]; the second component is [newState],
    the object the reducer returned, which the [action:] event hands to the
    subscribers. *)
Definition commit (reduce : heap -> ref_value -> ref_value -> heap * ref_value)
    (data : ref_value) (s : store) : store * ref_value :=
  let oldState := st_state s in
  let '(h, newState) := reduce (st_heap s) oldState data in
  let '(h, l) := heap_Object_assign_empty newState h in
  (Store h (Ref l), newState).

(** What a reader sees through a reference: the tree below it, followed to
    depth [fuel]. *)
Fixpoint view (fuel : nat) (h : heap) (v : ref_value) : value :=
  match v with
  | Prim p => p
  | Ref l =>
      match fuel with
      | O => VUndefined
      | S fuel' =>
          match h !! l with
          | Some o => VObject (map (fun p => (fst p, view fuel' h (snd p))) o)
          | None => VUndefined
          end
      end
  end.

(** The reducer of [BAHN:UPDATE]: [{ ...state, bahn: data }]. *)
Definition bahn_update (h : heap) (oldState data : ref_value) : heap * ref_value :=
  let '(h, l) := alloc (assign_prop "bahn" data (heap_props oldState h)) h in
  (h, Ref l).

(** ** Sample instances *)

(** A matcher that knows no wildcard, a verifier that accepts one token, an
    action in the manner of the specification's counter scenario, and the
    [BAHN:UPDATE] action on trees. *)
Definition exact_topic : string -> string -> bool := String.eqb.

Definition one_token (token : value) : option value :=
  match token with
  | VString "valid" => Some (VObject [("user", VString "admin")])
  | _ => None
  end.

Definition counter_reducer (s p : value) : value :=
  match top_level s "count", get_field p "amount" with
  | VNumber c, VNumber a => VObject (assign_prop "count" (VNumber (c + a)) (own_props s))
  | _, VNumber a => VObject (assign_prop "count" (VNumber a) (own_props s))
  | _, _ => VObject (assign_prop "count" VUndefined (own_props s))
  end.

Definition counter_validator (p : value) : value :=
  match get_field p "amount" with
  | VNumber _ => VBool true
  | _ => VBool false
  end.

Definition bahn_reducer (s data : value) : value :=
  VObject (assign_prop "bahn" data (own_props s)).

Definition bahn_validate (data : value) : value :=
  match data with
  | VNull | VArray _ | VObject _ => data
  | _ => VBool false
  end.

(** The store of the counter scenario: state [{ count: 0 }] and the action
    [COUNTER:INCREMENT]; and the same with the action registered in small
    letters. *)
Definition counter_world : world :=
  registerReducer "COUNTER:INCREMENT" counter_reducer counter_validator
    (init (VObject [("count", VNumber 0)]) ∅).


Definition amount (n : Z) : value := VObject [("amount", VNumber n)].

(** The store before a [BAHN:UPDATE]: the state object [{ bahn: null }] at
    location 0 and, at location 1, the object [{ routes: 3 }] that a caller
    is about to pass as the payload. *)
Definition bahn_store : store :=
  Store [ [("bahn", Prim VNull)]; [("routes", Prim (VNumber 3))] ] (Ref 0).

Definition credentials (token : string) : value := VObject [("token", VString token)].


(** Runs of the server on the counter store with the sample instances. *)
Definition serve (es : list event) : world :=
  run DiffEngine exact_topic one_token es (init (VObject [("count", VNumber 0)]) ∅).

(** The relayed messages among effects. *)
Definition relayed (l : list effect) : list (string * message) :=
  omap (fun e => match e with
                 | SocketEmit c m =>
                     match msg_origin m with
                     | FromRelay => Some (c, m)
                     | _ => None
                     end
                 | _ => None
                 end) l.

(** Three runs of the server: a client that authenticates and subscribes to
    [update]; the same client closing afterwards; two clients of which one
    authenticates. *)
Definition session_run : list event :=
  [Connect "c1"; Authenticate "c1" (credentials "valid"); ClientSubscribe "c1" "update"].

Definition closed_run : list event := session_run ++ [Disconnect "c1"].

Definition two_clients_run : list event :=
  [Connect "c1"; Connect "c2"; Authenticate "c1" (credentials "valid")].

(** ** Derived notions used by the statements *)

Definition is_lowercase (c : ascii) : bool :=
  let n := nat_of_ascii c in (97 <=? n)%nat && (n <=? 122)%nat.

Fixpoint has_lowercase (s : string) : bool :=
  match s with
  | EmptyString => false
  | String c rest => is_lowercase c || has_lowercase rest
  end.


(** The calls of listeners one [emitter.emit(topic, payload)] makes, given
    the [onAny] listeners and the other listeners. *)
Definition deliveries (matches : string -> string -> bool) (anys ons : list listener)
    (topic : string) (payload : value) : list effect :=
  map (fun l => call (l_callback l) [VString topic; payload]) anys
  ++ map (fun l => call (l_callback l) [payload])
         (List.filter (fun l => matches (l_event l) topic) ons).

Definition publish (matches : string -> string -> bool) (w : world)
    (topic : string) (payload : value) : list effect :=
  Emit topic payload :: deliveries matches (any_listeners w) (on_listeners w) topic payload.

(** The three groups of publishes of a dispatch that went through. *)
Definition dispatch_publishes (matches : string -> string -> bool) (w : world)
    (actionKey : string) (data newState : value) (stateDiff : list (string * value))
    : list effect :=
  flat_map (fun changedKey =>
              publish matches w ("update:" +:+ changedKey) (update_key_payload stateDiff))
           (Object_keys stateDiff)
  ++ publish matches w "update" (update_payload stateDiff actionKey)
  ++ publish matches w ("action:" +:+ actionKey)
             (action_payload newState stateDiff actionKey data).

(** The client a listener emits to. *)
Definition target (cb : callback) : option string :=
  match cb with
  | relaySingleEvent client _ => Some client
  | relayAllEvents client => Some client
  | serviceListener _ => None
  end.

(** The phase of the auth gate of a connection: [PENDING] while
    [socket.authenticated] is false, [AUTHENTICATED] once it is true. *)
Definition pending (w : world) (c : string) : Prop :=
  authenticated <$> sockets w !! c = Some false.

Definition authed (w : world) (c : string) : Prop :=
  authenticated <$> sockets w !! c = Some true.

(** A message that delivers a publish or a broadcast. *)
Definition is_delivery (m : message) : bool :=
  match msg_origin m with
  | FromRelay | FromBroadcast => true
  | FromAuthGate | FromGateway => false
  end.

(** What holds of the gates in every state the server reaches: a pending
    socket has no run of the gateway callback, every relay in the emitter
    and every entry of a [connected] table belongs to an authenticated
    socket, and the timer of an authenticated socket is not running. *)
Record gate_invariant (w : world) : Prop := GateInvariant {
  pending_no_session :
    forall c s, sockets w !! c = Some s -> authenticated s = false -> sessions s = [];
  relays_authenticated :
    forall l c, In l (any_listeners w ++ on_listeners w) ->
                target (l_callback l) = Some c -> authed w c;
  connected_authenticated :
    forall ns n c, nsps w !! ns = Some n -> c ∈ ns_connected n -> authed w c;
  authenticated_not_armed :
    forall c s, sockets w !! c = Some s -> authenticated s = true -> authTimeout s <> Armed
}.

(** The timer of a connection is not running (any more). *)
Definition stopped (w : world) (c : string) : Prop :=
  exists s, sockets w !! c = Some s /\ authTimeout s <> Armed.

(** The authenticated flags are the same in two states, and no timer has
    been started again. *)
Definition same_gates (w w' : world) : Prop :=
  forall c, authenticated <$> sockets w' !! c = authenticated <$> sockets w !! c
            /\ (stopped w c -> stopped w' c).

(** A step that leaves the gates alone and emits to authenticated sockets
    only. *)
Definition quiet (w w' : world) : Prop :=
  gate_invariant w ->
  gate_invariant w'
  /\ same_gates w w'
  /\ exists new, effects w' = effects w ++ new
                 /\ forall c m, In (SocketEmit c m) new -> authed w c.

(** A step of the server: gates only open, timers are not started again,
    and what the step emits to a socket that is pending before it comes
    from the auth gate, or from the gateway when the step opens the gate. *)
Definition guarded (w w' : world) : Prop :=
  gate_invariant w ->
  gate_invariant w'
  /\ (forall c, (authed w c -> authed w' c) /\ (stopped w c -> stopped w' c))
  /\ exists new, effects w' = effects w ++ new
                 /\ forall c m, In (SocketEmit c m) new ->
                                (is_delivery m = true -> authed w c)
                                /\ (msg_origin m <> FromAuthGate -> authed w' c).

(** ** app/services: the actions of the Bahn and Spotify services *)

(** The store with the action [BAHN:UPDATE] registered as the service
    exports it ([update] as the reducer). *)
Definition bahn_world : world :=
  registerReducer "BAHN:UPDATE" bahn_reducer bahn_validate
    (init (VObject [("bahn", VNull); ("count", VNumber 0)]) ∅).

(** [name in data] for the names the validator of [SPOTIFY:UPDATE-TOKEN]
    tests, none of which is an index, [length] or a member of a prototype:
    on an object it is the test for an own property, on an array it is
    false, and on a primitive the operator throws a TypeError ([None]). *)
Definition has_field (data : value) (name : string) : option bool :=
  match data with
  | VObject props => Some (existsb (fun p => String.eqb (fst p) name) props)
  | VArray _ => Some false
  | _ => None
  end.

(** [validate(data)] of [SPOTIFY:UPDATE-TOKEN]; [&&] stops at the first
    operand that is false. *)
Definition spotify_validate (data : value) : option value :=
  a ← has_field data "accessToken";
  if a : bool then
    e ← has_field data "expiresAt";
    if e : bool then
      r ← has_field data "refreshToken";
      Some (if r : bool then data else VBool false)
    else Some (VBool false)
  else Some (VBool false).

(** [update(state, { accessToken, expiresAt, refreshToken })] of
    [SPOTIFY:UPDATE-TOKEN]: [{ ...state, spotify: { ...state.spotify,
    accessToken, expiresAt, refreshToken } }].  Destructuring the payload
    and reading [state.spotify] throw on [undefined] and [null]. *)
Definition spotify_update (state data : value) : option value :=
  if negb (destructurable data) || negb (destructurable state) then None else
  let accessToken := get_field data "accessToken" in
  let expiresAt := get_field data "expiresAt" in
  let refreshToken := get_field data "refreshToken" in
  let spotify :=
    assign_prop "refreshToken" refreshToken
      (assign_prop "expiresAt" expiresAt
         (assign_prop "accessToken" accessToken
            (own_props (get_field state "spotify")))) in
  Some (VObject (assign_prop "spotify" (VObject spotify) (own_props state))).

(** ** app/http/auth.js *)

(** The session of a browser as [authRoutes] uses it: the properties [jwt]
    and [redirectUrl], with [VUndefined] for a property that is missing (the
    routes read both through [||] only, which does not tell a missing
    property from an undefined one).  The session store is taken to keep
    what a request leaves in the session. *)
Record session : Type := Session {
  session_jwt : value;
  session_redirectUrl : value
}.

Definition fresh_session : session := Session VUndefined VUndefined.

(** The requests to the routes [/auth/login], [/auth/callback] and
    [/auth/logout] with the query parameter each reads ([VUndefined] when it
    is missing), and the answers of the routes: the redirect to the sign-on
    server, [res.redirect(redirectUrl)], [res.status(401).json('Unauthorized')]
    and the redirect to the logout page of the sign-on server. *)
Inductive request : Type :=
| GET_auth_login (redirect_url : value)
| GET_auth_callback (auth_token : value)
| GET_auth_logout.

Inductive response : Type :=
| redirect_to_authenticate
| redirect (url : value)
| status_401_Unauthorized
| redirect_to_logout.

(** The extractor given to the strategy as [jwtFromRequest]:
    [req.session.jwt || null] when the request has a session. *)
Definition jwtFromRequest (req_session : option session) : value :=
  match req_session with
  | Some s => if truthy (session_jwt s) then session_jwt s else VNull
  | None => VNull
  end.

Section Routes.

(** [jwt.verify(token, config.auth.secret, { issuer, audience })]. *)
Variable jwt_verify : value -> option value.

Definition auth_login (redirect_url : value) (s : session) : session * response :=
  (Session (session_jwt s) redirect_url, redirect_to_authenticate).

Definition auth_callback (auth_token : value) (s : session) : session * response :=
  match jwt_verify auth_token with
  | Some _ =>
      let s := Session auth_token (session_redirectUrl s) in
      let redirectUrl :=
        if truthy (session_redirectUrl s) then session_redirectUrl s else VString "/" in
      (Session (session_jwt s) VUndefined, redirect redirectUrl)
  | None => (s, status_401_Unauthorized)
  end.

(** [req.session.destroy()]: the next request of the browser starts a new
    session. *)
Definition auth_logout (s : session) : session * response :=
  (fresh_session, redirect_to_logout).

Definition route (r : request) (s : session) : session * response :=
  match r with
  | GET_auth_login redirect_url => auth_login redirect_url s
  | GET_auth_callback auth_token => auth_callback auth_token s
  | GET_auth_logout => auth_logout s
  end.

(** The session after a browser has made the requests [rs] in turn. *)
Definition browse (rs : list request) (s : session) : session :=
  fold_left (fun acc r => fst (route r acc)) rs s.

End Routes.

(** ** app/state/actions/index.js *)

(** [String.prototype.toLowerCase] on ASCII strings, and [s.replace(/c/g, r)]
    for a character [c] and a replacement [r] of one character. *)
Definition lower_ascii (c : ascii) : ascii :=
  let n := nat_of_ascii c in
  if (65 <=? n)%nat && (n <=? 90)%nat then ascii_of_nat (n + 32) else c.

Fixpoint toLowerCase (s : string) : string :=
  match s with
  | EmptyString => EmptyString
  | String c rest => String (lower_ascii c) (toLowerCase rest)
  end.

Fixpoint replace_all (c r : ascii) (s : string) : string :=
  match s with
  | EmptyString => EmptyString
  | String x rest => String (if Ascii.eqb x c then r else x) (replace_all c r rest)
  end.

Definition actionIdToPath (actionId : string) : string :=
  toLowerCase (replace_all "_" "-" (replace_all ":" "/" actionId)).

Definition rawActions : list string :=
  [ "NOTIFICATIONS:CREATE"; "NOTIFICATIONS:DELETE"; "NOTIFICATIONS:MARK-AS-READ";
    "NOTIFICATIONS:SET"; "SPOTIFY:UPDATE-TOKEN"; "SYSTEM-INFO:UPDATE"; "SCENE:TOGGLE";
    "VIDEO-QUEUE:PUSH"; "VIDEO-QUEUE:PROGRESS"; "VIDEO-QUEUE:FINISHED" ].

(** [ids.reduce((allActions, action) => ({ ...allActions, [action]:
    require(`./${actionIdToPath(action)}`) }), {})], a required module being
    given by its path; the module exports this object for [rawActions]. *)
Definition modules_of (ids : list string) : list (string * value) :=
  fold_left
    (fun allActions action =>
       assign_prop action (VString ("./" +:+ actionIdToPath action)) allActions)
    ids [].

(** A character that is neither [:], nor [_], nor a capital letter. *)
Definition path_character (c : ascii) : bool :=
  let n := nat_of_ascii c in
  negb (Ascii.eqb c ":") && negb (Ascii.eqb c "_")
  && negb ((65 <=? n)%nat && (n <=? 90)%nat).

(** ** What the tables of the emitter, the gateway and the namespaces hold *)

(** The [subscriptions] objects of the runs of the gateway callback for a
    socket, none for an unknown socket. *)
Definition sessions_of (c : string) (w : world) : list (option subscriptions) :=
  match sockets w !! c with
  | Some s => sessions s
  | None => []
  end.

(** The emitter and the [subscriptions] objects agree: the identities of
    the listeners are below the next one to be given out; a listener is
    among the [onAny] listeners exactly when its event is ['*']; every relay
    in the emitter is recorded, under its event, in a [subscriptions] object
    of its client; and such an object has every event once, and no event
    named like a member of [Object.prototype]. *)
Record emitter_tables (w : world) : Prop := EmitterTables {
  ids_below_next :
    forall l, In l (any_listeners w ++ on_listeners w) -> l_id l < next_listener w;
  any_are_wildcard : forall l, In l (any_listeners w) -> l_event l = "*";
  on_are_named : forall l, In l (on_listeners w) -> l_event l <> "*";
  relays_recorded :
    forall l c, In l (any_listeners w ++ on_listeners w) ->
                target (l_callback l) = Some c ->
                exists i subs, sessions_of c w !! i = Some (Some subs)
                               /\ In (l_event l, l_id l) subs;
  keys_distinct :
    forall c i subs, sessions_of c w !! i = Some (Some subs) -> NoDup (map fst subs);
  keys_own :
    forall c i subs k, sessions_of c w !! i = Some (Some subs) ->
                       In k (map fst subs) -> inherited k = false
}.

(** The namespaces: a socket is in [connected] exactly when it is in
    [sockets] and authenticated, and the sockets of a namespace are open. *)
Record namespace_tables (w : world) : Prop := NamespaceTables {
  connected_iff :
    forall ns n c, nsps w !! ns = Some n ->
                   (c ∈ ns_connected n <-> c ∈ ns_sockets n /\ authed w c);
  members_open :
    forall ns n c, nsps w !! ns = Some n -> c ∈ ns_sockets n -> is_open c w = true
}.

(** An open socket has no [subscriptions] set to [null], a closed one has
    nothing else. *)
Definition session_flags (w : world) : Prop :=
  forall c i x, sessions_of c w !! i = Some x ->
                if is_open c w then x <> None else x = None.

Section Tokens.

Variable jwt_verify : value -> option value.

(** The token and the payload kept on an authenticated socket are a token
    that verifies and what verifying it gives. *)
Definition tokens_verified (w : world) : Prop :=
  forall c s, sockets w !! c = Some s -> authenticated s = true ->
              exists token payload,
                jwt s = Some token /\ jwtPayload s = Some payload
                /\ jwt_verify token = Some payload.

Record tables_invariant (w : world) : Prop := TablesInvariant {
  tables_emitter : emitter_tables w;
  tables_namespaces : namespace_tables w;
  tables_flags : session_flags w;
  tables_tokens : tokens_verified w
}.

End Tokens.

(** What the gate of a socket shows, and two states in which the gates and
    the namespaces are the same, or the emitter and the [subscriptions]
    objects. *)
Definition gate_view (s : socket) : bool * bool * option value * option value :=
  (authenticated s, open s, jwt s, jwtPayload s).

Definition same_gate_view (w w' : world) : Prop :=
  nsps w' = nsps w
  /\ forall c, gate_view <$> sockets w' !! c = gate_view <$> sockets w !! c.

Definition same_table_view (w w' : world) : Prop :=
  on_listeners w' = on_listeners w
  /\ any_listeners w' = any_listeners w
  /\ next_listener w' = next_listener w
  /\ forall c, sessions_of c w' = sessions_of c w.

(** A step that leaves the emitter, the sockets and the namespaces alone. *)
Definition same_tables (w w' : world) : Prop :=
  on_listeners w' = on_listeners w /\ any_listeners w' = any_listeners w
  /\ next_listener w' = next_listener w /\ sockets w' = sockets w /\ nsps w' = nsps w.

(** * Properties *)

(** ** Strings and values *)

Lemma upper_ascii_not_lowercase c : is_lowercase (upper_ascii c) = false.
Proof. destruct c as [[] [] [] [] [] [] [] []]; reflexivity. Qed.



Lemma toUpperCase_no_lowercase s : has_lowercase (toUpperCase s) = false.
Proof.
  induction s as [|c s IH]; simpl; [reflexivity|].
  now rewrite upper_ascii_not_lowercase, IH.
Qed.

Lemma inherited_has_lowercase s : inherited s = true -> has_lowercase s = true.
Proof.
  unfold inherited. rewrite existsb_exists. intros [name [Hin Heq]].
  apply String.eqb_eq in Heq. subst name.
  simpl in Hin.
  repeat (destruct Hin as [<-|Hin]; [reflexivity|]). contradiction.
Qed.

(** No member of [Object.prototype] is spelled in capitals, so for the
    normalized key [in] is the test for a registered action. *)
Lemma inherited_toUpperCase s : inherited (toUpperCase s) = false.
Proof.
  destruct (inherited (toUpperCase s)) eqn:E; [|reflexivity].
  apply inherited_has_lowercase in E.
  now rewrite toUpperCase_no_lowercase in E.
Qed.


(** ** Effects *)

Lemma with_effects_effects w : with_effects (effects w) w = w.
Proof. now destruct w. Qed.

Lemma perform_with_effects e l w :
  perform e (with_effects l w) = with_effects (l ++ [e]) w.
Proof. reflexivity. Qed.

Lemma fold_perform {A} (f : A -> effect) (xs : list A) : forall l w,
  fold_left (fun acc x => perform (f x) acc) xs (with_effects l w)
  = with_effects (l ++ map f xs) w.
Proof.
  induction xs as [|x xs IH]; intros l w; simpl.
  - now rewrite app_nil_r.
  - rewrite perform_with_effects, IH. now rewrite <- app_assoc.
Qed.

Lemma emit_publish matches topic payload l w :
  emit matches topic payload (with_effects l w)
  = with_effects (l ++ publish matches w topic payload) w.
Proof.
  unfold emit, invoke, publish, deliveries. simpl.
  rewrite perform_with_effects.
  rewrite (fold_perform (fun x => call (l_callback x) [VString topic; payload])).
  rewrite (fold_perform (fun x => call (l_callback x) [payload])).
  f_equal. rewrite <- !app_assoc. reflexivity.
Qed.

Lemma fold_emit matches (f : string -> string) payload (ks : list string) : forall l w,
  fold_left (fun acc k => emit matches (f k) payload acc) ks (with_effects l w)
  = with_effects (l ++ flat_map (fun k => publish matches w (f k) payload) ks) w.
Proof.
  induction ks as [|k ks IH]; intros l w; simpl.
  - now rewrite app_nil_r.
  - rewrite emit_publish, IH. now rewrite <- app_assoc.
Qed.

Lemma publishes_app l1 l2 : publishes (l1 ++ l2) = publishes l1 ++ publishes l2.
Proof. apply omap_app. Qed.

Lemma assignments_app l1 l2 : assignments (l1 ++ l2) = assignments l1 ++ assignments l2.
Proof. apply omap_app. Qed.

Lemma call_not_publish cb args : publishes [call cb args] = [].
Proof. now destruct cb. Qed.

Lemma call_not_assignment cb args : assignments [call cb args] = [].
Proof. now destruct cb. Qed.

Lemma publishes_deliveries matches anys ons topic payload :
  publishes (deliveries matches anys ons topic payload) = [].
Proof.
  unfold deliveries. rewrite publishes_app.
  assert (H : forall (ls : list listener) args,
             publishes (map (fun l => call (l_callback l) (args l)) ls) = []).
  { induction ls as [|x ls IH]; intros args; [reflexivity|].
    change (publishes ([call (l_callback x) (args x)]
                       ++ map (fun l => call (l_callback l) (args l)) ls) = []).
    now rewrite publishes_app, call_not_publish, IH. }
  rewrite (H anys (fun _ => [VString topic; payload])).
  now rewrite (H _ (fun _ => [payload])).
Qed.

Lemma assignments_deliveries matches anys ons topic payload :
  assignments (deliveries matches anys ons topic payload) = [].
Proof.
  unfold deliveries. rewrite assignments_app.
  assert (H : forall (ls : list listener) args,
             assignments (map (fun l => call (l_callback l) (args l)) ls) = []).
  { induction ls as [|x ls IH]; intros args; [reflexivity|].
    change (assignments ([call (l_callback x) (args x)]
                         ++ map (fun l => call (l_callback l) (args l)) ls) = []).
    now rewrite assignments_app, call_not_assignment, IH. }
  rewrite (H anys (fun _ => [VString topic; payload])).
  now rewrite (H _ (fun _ => [payload])).
Qed.

Lemma publishes_publish matches w topic payload :
  publishes (publish matches w topic payload) = [(topic, payload)].
Proof.
  unfold publish.
  change (publishes ([Emit topic payload]
                     ++ deliveries matches (any_listeners w) (on_listeners w) topic payload)
          = [(topic, payload)]).
  now rewrite publishes_app, publishes_deliveries.
Qed.

Lemma assignments_publish matches w topic payload :
  assignments (publish matches w topic payload) = [].
Proof.
  unfold publish.
  change (assignments ([Emit topic payload]
                       ++ deliveries matches (any_listeners w) (on_listeners w) topic payload)
          = []).
  now rewrite assignments_app, assignments_deliveries.
Qed.

Lemma publishes_dispatch matches w actionKey data newState stateDiff :
  publishes (dispatch_publishes matches w actionKey data newState stateDiff)
  = map (fun changedKey => ("update:" +:+ changedKey, update_key_payload stateDiff))
        (Object_keys stateDiff)
    ++ [("update", update_payload stateDiff actionKey);
        ("action:" +:+ actionKey, action_payload newState stateDiff actionKey data)].
Proof.
  unfold dispatch_publishes. rewrite !publishes_app, !publishes_publish.
  f_equal. induction (Object_keys stateDiff) as [|k ks IH]; [reflexivity|].
  cbn [flat_map map]. rewrite publishes_app, publishes_publish, IH. reflexivity.
Qed.

Lemma assignments_dispatch matches w actionKey data newState stateDiff :
  assignments (dispatch_publishes matches w actionKey data newState stateDiff) = [].
Proof.
  unfold dispatch_publishes. rewrite !assignments_app, !assignments_publish.
  rewrite !app_nil_r. induction (Object_keys stateDiff) as [|k ks IH]; [reflexivity|].
  cbn [flat_map]. now rewrite assignments_app, assignments_publish, IH.
Qed.

(** ** The dispatcher *)

Section Dispatcher.

Variable diff : value -> value -> list (string * value).
Variable matches : string -> string -> bool.

(** What [callAction] does with a string key, case by case. *)
Lemma callAction_string k data w :
  callAction diff matches (VString k) data w =
  let actionKey := toUpperCase k in
  let running := Log (LogRunningAction (VString k) data) in
  match actions w !! actionKey with
  | None =>
      (with_effects (effects w ++ [running; Log (LogActionNotFound actionKey)]) w,
       Returned)
  | Some a =>
      if truthy (validate a data)
      then
        let newState := reducer a (state w) data in
        let stateDiff := diff (state w) newState in
        (with_effects
           (effects w
            ++ [running; SetState (Object_assign_empty newState)]
            ++ dispatch_publishes matches w actionKey data newState stateDiff)
           (with_state (Object_assign_empty newState) w), Returned)
      else
        (with_effects (effects w ++ [running; Log (LogActionInvalid actionKey)]) w,
         Returned)
  end.
Proof.
  unfold callAction, in_actions. cbn [template_ok call_toUpperCase negb].
  rewrite inherited_toUpperCase, orb_false_r.
  cbn zeta.
  change (actions (perform ?e w)) with (actions w).
  destruct (actions w !! toUpperCase k) as [a|] eqn:Hk.
  - rewrite bool_decide_eq_true_2 by eauto. cbn [negb].
    destruct (truthy (validate a data)); cbn [negb].
    + change (state (perform ?e w)) with (state w).
      set (newState := reducer a (state w) data).
      set (stateDiff := diff (state w) newState).
      set (running := Log (LogRunningAction (VString k) data)).
      change (perform (SetState (Object_assign_empty newState))
                (with_state (Object_assign_empty newState) (perform running w)))
        with (with_effects ((effects w ++ [running])
                            ++ [SetState (Object_assign_empty newState)])
                (with_state (Object_assign_empty newState) w)).
      rewrite (fold_emit matches (fun key => "update:" +:+ key)).
      rewrite !emit_publish.
      unfold dispatch_publishes. f_equal. f_equal.
      rewrite <- !app_assoc. reflexivity.
    + unfold perform, with_effects; cbn. now rewrite <- app_assoc.
  - rewrite bool_decide_eq_false_2 by (intros [? ?]; discriminate).
    unfold perform, with_effects; cbn. now rewrite <- app_assoc.
Qed.


(** C3.  For a registered action, the result of the validator is looked
    at for its truth value only.  When it is falsy the dispatch returns
    with the snapshot as it was and without a publish; when it is truthy
    the reducer is run on the payload the caller gave, which is also the
    [actionData] of the [action:] event. *)
Theorem callAction_validation k data w a :
  actions w !! toUpperCase k = Some a ->
  let w' := fst (callAction diff matches (VString k) data w) in
  let newState := reducer a (state w) data in
  let stateDiff := diff (state w) newState in
  snd (callAction diff matches (VString k) data w) = Returned
  /\ getState w'
     = (if truthy (validate a data) then Object_assign_empty newState else getState w)
  /\ publishes (effects w')
     = publishes (effects w)
       ++ (if truthy (validate a data)
           then map (fun changedKey =>
                       ("update:" +:+ changedKey, update_key_payload stateDiff))
                    (Object_keys stateDiff)
                ++ [("update", update_payload stateDiff (toUpperCase k));
                    ("action:" +:+ toUpperCase k,
                     action_payload newState stateDiff (toUpperCase k) data)]
           else [])
  /\ assignments (effects w')
     = assignments (effects w)
       ++ (if truthy (validate a data) then [Object_assign_empty newState] else []).
Proof.
  intros Hk. rewrite callAction_string. cbn zeta. rewrite Hk.
  destruct (truthy (validate a data)); cbn [fst snd getState].
  - repeat split.
    + cbn [effects with_effects].
      rewrite !publishes_app, publishes_dispatch. reflexivity.
    + cbn [effects with_effects].
      rewrite !assignments_app, assignments_dispatch. now rewrite app_nil_r.
  - repeat split; cbn [effects with_effects].
    + now rewrite publishes_app.
    + now rewrite assignments_app.
Qed.





End Dispatcher.

(** ** The diff engine *)



(** ** The dispatcher on the counter scenario *)


Lemma callAction_validation_witness :
  actions counter_world !! toUpperCase "counter:increment"
  = Some (Action counter_reducer counter_validator)
  /\ getState (fst (callAction DiffEngine exact_topic (VString "counter:increment")
                      (VObject [("amount", VString "x")]) counter_world))
     = VObject [("count", VNumber 0)].
Proof.
  assert (H : actions counter_world !! toUpperCase "counter:increment"
              = Some (Action counter_reducer counter_validator))
    by (vm_compute; reflexivity).
  split; [exact H|].
  destruct (callAction_validation DiffEngine exact_topic "counter:increment"
              (VObject [("amount", VString "x")]) counter_world _ H) as (_ & Hstate & _).
  exact Hstate.
Defined.





(** ** The committed snapshot and references to it *)

(** The copy is a new object: its location is not in use before, and it gets
    the properties the candidate has at that moment. *)
Lemma commit_allocates reduce data s :
  let h := fst (reduce (st_heap s) (st_state s) data) in
  let newState := snd (reduce (st_heap s) (st_state s) data) in
  commit reduce data s
  = (Store (h ++ [heap_props newState h]) (Ref (length h)), newState).
Proof.
  unfold commit, heap_Object_assign_empty, alloc.
  now destruct (reduce (st_heap s) (st_state s) data).
Qed.

Lemma heap_write_other l l' k v (h : heap) :
  l <> l' -> heap_write l k v h !! l' = h !! l'.
Proof.
  intros Hne. unfold heap_write. destruct (h !! l); [|reflexivity].
  now apply list_lookup_insert_ne.
Qed.

(** The copy is shallow but it is a copy: assigning a property of any other
    object, the candidate included, leaves the properties of the committed
    object as they are. *)
Lemma commit_copies_top_level reduce data s l k v :
  let s' := fst (commit reduce data s) in
  st_state s' <> Ref l ->
  heap_props (st_state s') (heap_write l k v (st_heap s')) = heap_props (st_state s') (st_heap s').
Proof.
  rewrite commit_allocates. cbn [fst st_state st_heap heap_props].
  intros Hne. rewrite heap_write_other; [reflexivity|congruence].
Qed.

(** C5 on the code: the committed snapshot shares every nested object with
    the candidate.  After [BAHN:UPDATE] with the payload at location 1 the
    candidate is the object at 2 and the committed snapshot the object at 3,
    both with [bahn] pointing to the payload; the caller assigns
    [data.routes = 0] and the committed snapshot reads differently. *)
Theorem commit_shares_nested_objects :
  let s := fst (commit bahn_update (Ref 1) bahn_store) in
  let newState := snd (commit bahn_update (Ref 1) bahn_store) in
  newState = Ref 2
  /\ st_state s = Ref 3
  /\ heap_props newState (st_heap s) = [("bahn", Ref 1)]
  /\ view 3 (st_heap s) (st_state s)
     = VObject [("bahn", VObject [("routes", VNumber 3)])]
  /\ view 3 (heap_write 1 "routes" (Prim (VNumber 0)) (st_heap s)) (st_state s)
     = VObject [("bahn", VObject [("routes", VNumber 0)])].
Proof. repeat split. Qed.

(** ** The auth gate *)

Lemma authenticated_authed w c s :
  sockets w !! c = Some s -> authenticated s = true -> authed w c.
Proof. intros Hs Ha. unfold authed. now rewrite Hs; cbn; rewrite Ha. Qed.


Lemma same_gates_authed w w' c : same_gates w w' -> authed w' c <-> authed w c.
Proof. intros H. unfold authed. now rewrite (proj1 (H c)). Qed.

Lemma same_sockets_same_gates w w' : sockets w' = sockets w -> same_gates w w'.
Proof. intros H c. unfold stopped. rewrite H. now split. Qed.

Lemma quiet_refl w : quiet w w.
Proof.
  intros Hinv. split; [assumption|]. split; [now apply same_sockets_same_gates|].
  exists []. split; [now rewrite app_nil_r|]. intros c m [].
Qed.

Lemma quiet_trans w1 w2 w3 : quiet w1 w2 -> quiet w2 w3 -> quiet w1 w3.
Proof.
  intros H12 H23 Hinv.
  destruct (H12 Hinv) as (Hinv2 & Hg12 & new1 & He1 & Hn1).
  destruct (H23 Hinv2) as (Hinv3 & Hg23 & new2 & He2 & Hn2).
  split; [assumption|]. split.
  - intros c. destruct (Hg12 c) as [E1 S1], (Hg23 c) as [E2 S2].
    split; [now rewrite E2, E1|auto].
  - exists (new1 ++ new2). split.
    + now rewrite He2, He1, app_assoc.
    + intros c m Hin. apply in_app_iff in Hin as [Hin|Hin].
      * exact (Hn1 c m Hin).
      * apply (same_gates_authed _ _ c Hg12). exact (Hn2 c m Hin).
Qed.

Lemma quiet_guarded w w' : quiet w w' -> guarded w w'.
Proof.
  intros Hq Hinv. destruct (Hq Hinv) as (Hinv' & Hg & new & He & Hn).
  split; [assumption|]. split.
  - intros c. split; [now apply (same_gates_authed _ _ c Hg)|apply (Hg c)].
  - exists new. split; [assumption|]. intros c m Hin. split; intros _.
    + exact (Hn c m Hin).
    + apply (same_gates_authed _ _ c Hg). exact (Hn c m Hin).
Qed.

(** A step that only writes the state, the registry or effects. *)
Lemma quiet_store w acts st new :
  (forall c m, In (SocketEmit c m) new ->
     exists l, In l (any_listeners w ++ on_listeners w) /\ target (l_callback l) = Some c) ->
  quiet w (with_effects (effects w ++ new) (with_state st (with_actions acts w))).
Proof.
  intros Hnew [H1 H2 H3 H4]. split; [|split].
  - constructor; assumption.
  - now apply same_sockets_same_gates.
  - exists new. split; [reflexivity|]. intros c m Hin.
    destruct (Hnew c m Hin) as (l & Hl & Ht). now apply (H2 l c).
Qed.

Lemma call_target cb args c m :
  call cb args = SocketEmit c m -> target cb = Some c /\ msg_origin m = FromRelay.
Proof. destruct cb; cbn; intros [= <- <-] || discriminate; now split. Qed.

Lemma deliveries_target matches anys ons topic payload c m :
  In (SocketEmit c m) (deliveries matches anys ons topic payload) ->
  exists l, In l (anys ++ ons) /\ target (l_callback l) = Some c.
Proof.
  unfold deliveries. rewrite in_app_iff, !in_map_iff.
  intros [(l & Hcall & Hin)|(l & Hcall & Hin)]; exists l;
    apply call_target in Hcall as [Ht _]; (split; [|assumption]); apply in_app_iff.
  - now left.
  - right. now apply filter_In in Hin.
Qed.

Lemma publish_target matches w topic payload c m :
  In (SocketEmit c m) (publish matches w topic payload) ->
  exists l, In l (any_listeners w ++ on_listeners w) /\ target (l_callback l) = Some c.
Proof.
  unfold publish. intros [Hin|Hin]; [discriminate|].
  now apply deliveries_target in Hin.
Qed.

Lemma dispatch_publishes_target matches w actionKey data newState stateDiff c m :
  In (SocketEmit c m) (dispatch_publishes matches w actionKey data newState stateDiff) ->
  exists l, In l (any_listeners w ++ on_listeners w) /\ target (l_callback l) = Some c.
Proof.
  unfold dispatch_publishes. rewrite !in_app_iff, in_flat_map.
  intros [(k & _ & Hin)|[Hin|Hin]]; now apply publish_target in Hin.
Qed.

Lemma emit_eq matches topic payload w :
  emit matches topic payload w = with_effects (effects w ++ publish matches w topic payload) w.
Proof. rewrite <- (with_effects_effects w) at 1. apply emit_publish. Qed.

Lemma quiet_then_guarded w1 w2 w3 : quiet w1 w2 -> guarded w2 w3 -> guarded w1 w3.
Proof.
  intros H12 H23 Hinv.
  destruct (H12 Hinv) as (Hinv2 & Hg12 & new1 & He1 & Hn1).
  destruct (H23 Hinv2) as (Hinv3 & Hmono & new2 & He2 & Hn2).
  split; [assumption|]. split.
  - intros c. destruct (Hmono c) as [Ha Hs]. split.
    + intros Hc. apply Ha. now apply (same_gates_authed _ _ c Hg12).
    + intros Hc. apply Hs. now apply (Hg12 c).
  - exists (new1 ++ new2). split.
    + now rewrite He2, He1, app_assoc.
    + intros c m Hin. apply in_app_iff in Hin as [Hin|Hin].
      * pose proof (Hn1 c m Hin) as Hc. split; intros _; [assumption|].
        apply (Hmono c). now apply (same_gates_authed _ _ c Hg12).
      * destruct (Hn2 c m Hin) as [Hd Ho]. split; [|assumption].
        intros Hm. apply (same_gates_authed _ _ c Hg12). now apply Hd.
Qed.

(** Emitting to sockets that are authenticated. *)
Lemma quiet_effects w new :
  (gate_invariant w -> forall c m, In (SocketEmit c m) new -> authed w c) ->
  quiet w (with_effects (effects w ++ new) w).
Proof.
  intros Hnew Hinv. split; [|split].
  - destruct Hinv. constructor; assumption.
  - now apply same_sockets_same_gates.
  - exists new. split; [reflexivity|]. now apply Hnew.
Qed.

Lemma alter_authenticated (f : socket -> socket) c c' (m : gmap string socket) :
  (forall s, authenticated (f s) = authenticated s) ->
  authenticated <$> alter f c m !! c' = authenticated <$> m !! c'.
Proof.
  intros Hf. rewrite lookup_alter. destruct (decide (c = c')) as [->|]; [|reflexivity].
  destruct (m !! c') as [s|]; cbn; [|reflexivity]. now rewrite Hf.
Qed.

(** Changing a socket in a way the gate does not see. *)
Lemma quiet_update_socket c f w :
  (forall s, authenticated (f s) = authenticated s) ->
  (forall s, sessions s = [] -> sessions (f s) = []) ->
  (forall s, authTimeout s <> Armed -> authTimeout (f s) <> Armed) ->
  quiet w (update_socket c f w).
Proof.
  intros Hauth Hsess Htimer [H1 H2 H3 H4].
  assert (Hg : same_gates w (update_socket c f w)).
  { intros c'. split; [cbn; now apply alter_authenticated|].
    intros (s & Hs & Hn). unfold stopped. cbn [update_socket with_sockets sockets].
    rewrite lookup_alter. destruct (decide (c = c')) as [->|]; [|eauto].
    rewrite Hs. cbn. eauto. }
  split; [|split; [exact Hg|]].
  - constructor; cbn [update_socket with_sockets sockets on_listeners any_listeners nsps].
    + intros c' s'. rewrite lookup_alter.
      destruct (decide (c = c')) as [->|]; [|apply H1].
      destruct (sockets w !! c') as [s|] eqn:Hs; cbn; [|discriminate].
      intros [= <-]. rewrite Hauth. intros Ha. apply Hsess. now apply (H1 c').
    + intros l c' Hl Ht. apply (same_gates_authed _ _ c' Hg). now apply (H2 l).
    + intros ns n c' Hn Hc. apply (same_gates_authed _ _ c' Hg). now apply (H3 ns n).
    + intros c' s'. rewrite lookup_alter.
      destruct (decide (c = c')) as [->|]; [|apply H4].
      destruct (sockets w !! c') as [s|] eqn:Hs; cbn; [|discriminate].
      intros [= <-]. rewrite Hauth. intros Ha. apply Htimer. now apply (H4 c').
  - exists []. split; [cbn; now rewrite app_nil_r|]. intros ? ? [].
Qed.

(** Changing the listeners so that every new relay has an authenticated
    client. *)
Lemma quiet_listeners ons anys next w :
  (gate_invariant w -> forall l c, In l (anys ++ ons) ->
     target (l_callback l) = Some c -> authed w c) ->
  quiet w (with_listeners ons anys next w).
Proof.
  intros Hl Hinv. pose proof (Hl Hinv) as Hl'. destruct Hinv as [H1 H2 H3 H4].
  split; [|split].
  - constructor; assumption.
  - now apply same_sockets_same_gates.
  - exists []. split; [cbn; now rewrite app_nil_r|]. intros ? ? [].
Qed.

(** Changing the [connected] tables so that they hold authenticated sockets
    only. *)
Lemma quiet_nsps n' w :
  (gate_invariant w -> forall ns n c, n' !! ns = Some n -> c ∈ ns_connected n -> authed w c) ->
  quiet w (with_nsps n' w).
Proof.
  intros Hn Hinv. pose proof (Hn Hinv) as Hn'. destruct Hinv as [H1 H2 H3 H4].
  split; [|split].
  - constructor; assumption.
  - now apply same_sockets_same_gates.
  - exists []. split; [cbn; now rewrite app_nil_r|]. intros ? ? [].
Qed.

(** A step that changes one socket [c], possibly opening its gate, that
    enters nobody but [c] in a [connected] table and that emits no delivery:
    the shape of a connection, of an authentication attempt and of a
    timeout. *)
Lemma guarded_gate c (socks : gmap string socket) (spaces : gmap string namespace)
    new effs w :
  effs = effects w ++ new ->
  (forall x, x <> c -> socks !! x = sockets w !! x) ->
  (forall s, socks !! c = Some s ->
     (authenticated s = false -> sessions s = [])
     /\ (authenticated s = true -> authTimeout s <> Armed)) ->
  (authed w c -> authenticated <$> socks !! c = Some true) ->
  (stopped w c -> exists s, socks !! c = Some s /\ authTimeout s <> Armed) ->
  (gate_invariant w -> forall ns n x, spaces !! ns = Some n -> x ∈ ns_connected n ->
     (x = c /\ authenticated <$> socks !! c = Some true) \/ authed w x) ->
  (forall x m, In (SocketEmit x m) new ->
     is_delivery m = false
     /\ (msg_origin m <> FromAuthGate ->
         x = c /\ authenticated <$> socks !! c = Some true)) ->
  guarded w (World (actions w) (state w) (on_listeners w) (any_listeners w)
                   (next_listener w) socks spaces effs).
Proof.
  intros -> Hother Hc Hmono Hstop Hspaces Hnew Hinv.
  specialize (Hspaces Hinv). destruct Hinv as [H1 H2 H3 H4].
  set (w' := World _ _ _ _ _ _ _ _).
  assert (Hup : forall x, authed w x -> authed w' x).
  { intros x Hx. unfold authed. cbn [w' sockets].
    destruct (decide (x = c)) as [->|Hne]; [now apply Hmono|].
    now rewrite Hother. }
  split; [|split].
  2:{ intros x. split; [apply Hup|]. unfold stopped. cbn [w' sockets].
      destruct (decide (x = c)) as [->|Hne]; [exact Hstop|]. now rewrite Hother. }
  - constructor; cbn [w' sockets on_listeners any_listeners nsps].
    + intros x s Hs. destruct (decide (x = c)) as [->|Hne].
      * now apply Hc.
      * rewrite Hother in Hs by assumption. now apply (H1 x).
    + intros l x Hl Ht. apply Hup. now apply (H2 l).
    + intros ns n x Hn Hx. destruct (Hspaces ns n x Hn Hx) as [[-> Ha]|Ha].
      * exact Ha.
      * now apply Hup.
    + intros x s Hs. destruct (decide (x = c)) as [->|Hne].
      * now apply Hc.
      * rewrite Hother in Hs by assumption. now apply (H4 x).
  - exists new. split; [reflexivity|]. intros x m Hin.
    destruct (Hnew x m Hin) as [Hd Ho]. split.
    + rewrite Hd. discriminate.
    + intros Hm. destruct (Ho Hm) as [-> Ha]. exact Ha.
Qed.

Lemma world_frame w w' :
  actions w' = actions w -> state w' = state w ->
  on_listeners w' = on_listeners w -> any_listeners w' = any_listeners w ->
  next_listener w' = next_listener w ->
  w' = World (actions w) (state w) (on_listeners w) (any_listeners w) (next_listener w)
             (sockets w') (nsps w') (effects w').
Proof. destruct w'. cbn. now intros -> -> -> -> ->. Qed.

Section Gates.

Variable diff : value -> value -> list (string * value).
Variable matches : string -> string -> bool.
Variable jwt_verify : value -> option value.

Lemma quiet_emitEvent name data w : quiet w (emitEvent matches name data w).
Proof.
  unfold emitEvent. rewrite emit_eq.
  apply (quiet_store w (actions w) (state w)).
  intros c m. apply publish_target.
Qed.

Lemma quiet_perform e w :
  (forall c m, e <> SocketEmit c m) -> quiet w (perform e w).
Proof.
  intros He. apply (quiet_store w (actions w) (state w) [e]).
  intros c m [Hin|[]]. now destruct (He c m).
Qed.

Lemma quiet_callAction key data w : quiet w (fst (callAction diff matches key data w)).
Proof.
  destruct key;
    try (unfold callAction; cbn [call_toUpperCase]; destruct (template_ok _); cbn [negb fst];
         [now apply quiet_perform | apply quiet_refl]).
  rewrite callAction_string. cbn zeta.
  destruct (actions w !! toUpperCase s) as [a|].
  - destruct (truthy (validate a data)); cbn [fst].
    + apply (quiet_store w (actions w)).
      intros c m [Hin|[Hin|Hin]]; try discriminate.
      now apply dispatch_publishes_target in Hin.
    + apply (quiet_store w (actions w) (state w)).
      intros c m [Hin|[Hin|[]]]; discriminate.
  - apply (quiet_store w (actions w) (state w)).
    intros c m [Hin|[Hin|[]]]; discriminate.
Qed.

Lemma quiet_registerReducer id r v w : quiet w (registerReducer id r v w).
Proof.
  unfold registerReducer. destruct (String.eqb id "__proto__"); [apply quiet_refl|].
  replace (with_actions (<[id := Action r v]> (actions w)) w)
    with (with_effects (effects w ++ [])
            (with_state (state w) (with_actions (<[id := Action r v]> (actions w)) w)))
    by (unfold with_effects, with_state, with_actions; cbn; now rewrite app_nil_r).
  apply quiet_store. intros c m [].
Qed.

Lemma quiet_unsubscribe name id w : quiet w (unsubscribe name id w).
Proof.
  unfold unsubscribe. destruct (String.eqb name "*"); apply quiet_listeners;
    intros [_ H2 _ _] l c Hl; apply H2;
    rewrite in_app_iff in *; destruct Hl as [Hl|Hl];
    try apply filter_In in Hl as [Hl _]; auto.
Qed.

Lemma quiet_subscribe name cb w :
  (gate_invariant w -> forall c, target cb = Some c -> authed w c) ->
  quiet w (fst (subscribe name cb w)).
Proof.
  intros Hcb. unfold subscribe. destruct (String.eqb name "*"); cbn [fst];
    apply quiet_listeners; intros Hinv l c Hl;
    rewrite !in_app_iff in Hl; cbn [In] in Hl;
    destruct Hl as [Hl|Hl]; try destruct Hl as [Hl|Hl]; try destruct Hl as [<-|[]];
    try (cbn [l_callback]; now apply Hcb);
    apply (relays_authenticated w Hinv l); apply in_app_iff; auto.
Qed.

Lemma quiet_for_each idx (h : nat -> world -> world * outcome) :
  (forall i w, quiet w (fst (h i w))) ->
  forall w, quiet w (fst (for_each idx h w)).
Proof.
  intros Hh. induction idx as [|i idx IH]; intros w; cbn [for_each fst].
  - apply quiet_refl.
  - pose proof (Hh i w) as Hi. destruct (h i w) as [w' []]; cbn [fst] in *.
    + now apply (quiet_trans _ w').
    + assumption.
Qed.

(** Only an authenticated socket has a run of the gateway callback. *)
Lemma session_authed c i w x :
  gate_invariant w -> session_of c i w = Some x -> authed w c.
Proof.
  intros Hinv. unfold session_of.
  destruct (sockets w !! c) as [s|] eqn:Hs; cbn; [|discriminate].
  intros Hi. destruct (authenticated s) eqn:Ha.
  - now apply (authenticated_authed w c s).
  - rewrite (pending_no_session w Hinv c s Hs Ha) in Hi. discriminate.
Qed.

Lemma quiet_set_session c i x w : quiet w (set_session c i x w).
Proof.
  apply quiet_update_socket; intros s; cbn; try easy.
  intros ->. reflexivity.
Qed.

Lemma quiet_on_action payload w : quiet w (fst (on_action diff matches payload w)).
Proof.
  unfold on_action. destruct (destructurable payload); cbn [negb fst]; [|apply quiet_refl].
  destruct (template_ok _); cbn [negb fst]; [|apply quiet_refl].
  eapply quiet_trans; [|apply quiet_callAction]. now apply quiet_perform.
Qed.

Lemma quiet_on_subscribe c name i w : quiet w (fst (on_subscribe c name i w)).
Proof.
  unfold on_subscribe. destruct (session_of c i w) as [[subs|]|] eqn:Hs;
    cbn [fst]; try apply quiet_refl.
  destruct (in_subscriptions name subs); cbn [fst]; [apply quiet_refl|].
  intros Hinv. pose proof (session_authed c i w _ Hinv Hs) as Hc. revert Hinv.
  set (relayEvent := if String.eqb name "*" then relayAllEvents c
                     else relaySingleEvent c name).
  set (w1 := perform (Log (LogClientSubscribed name)) w).
  destruct (subscribe name relayEvent w1) as [w2 handle] eqn:Hsub. cbn [fst].
  apply (quiet_trans _ w1); [now apply quiet_perform|].
  apply (quiet_trans _ w2); [|apply quiet_set_session].
  replace w2 with (fst (subscribe name relayEvent w1)) by now rewrite Hsub.
  apply quiet_subscribe. intros _ c' Ht.
  assert (c' = c) as -> by (subst relayEvent; destruct (String.eqb name "*");
                            cbn in Ht; congruence).
  exact Hc.
Qed.

Lemma quiet_on_unsubscribe c name i w : quiet w (fst (on_unsubscribe c name i w)).
Proof.
  unfold on_unsubscribe. destruct (session_of c i w) as [[subs|]|];
    cbn [fst]; try apply quiet_refl.
  destruct (in_subscriptions name subs); cbn [negb fst]; [|apply quiet_refl].
  set (w1 := perform (Log (LogClientUnsubscribing name)) w).
  assert (H1 : quiet w w1) by now apply quiet_perform.
  destruct (lookup_handle name subs) as [handle|]; cbn [fst].
  - apply (quiet_trans _ w1); [exact H1|].
    eapply quiet_trans; [apply quiet_unsubscribe|apply quiet_set_session].
  - now destruct (inherited_call_throws name).
Qed.

Lemma quiet_unsubscribe_all (subs : subscriptions) : forall w,
  quiet w (fold_left (fun acc p => unsubscribe (fst p) (snd p) acc) subs w).
Proof.
  induction subs as [|p subs IH]; intros w; cbn [fold_left]; [apply quiet_refl|].
  eapply quiet_trans; [apply quiet_unsubscribe|apply IH].
Qed.

Lemma quiet_on_disconnect c i w : quiet w (fst (on_disconnect c i w)).
Proof.
  unfold on_disconnect.
  set (w1 := perform (Log LogClientDisconnected) w).
  assert (H1 : quiet w w1) by now apply quiet_perform.
  destruct (session_of c i w1) as [[subs|]|]; cbn [fst]; try exact H1.
  apply (quiet_trans _ w1); [exact H1|].
  eapply quiet_trans; [apply quiet_unsubscribe_all|apply quiet_set_session].
Qed.

Lemma quiet_close c w : quiet w (fst (close c w)).
Proof.
  unfold close.
  set (w1 := with_nsps (ns_leave c <$> nsps w) w).
  set (w2 := update_socket c (set_open false) w1).
  apply (quiet_trans _ w1); [|apply (quiet_trans _ w2);
                               [|apply quiet_for_each; intros; apply quiet_on_disconnect]].
  - apply quiet_nsps. intros Hinv ns n x. rewrite lookup_fmap.
    destruct (nsps w !! ns) as [n0|] eqn:Hn; cbn; [|discriminate].
    intros [= <-]. cbn. intros Hx. apply elem_of_difference in Hx as [Hx _].
    now apply (connected_authenticated w Hinv ns n0).
  - apply quiet_update_socket; intros s; cbn; easy.
Qed.

Lemma guarded_Connect c w :
  guarded w (fst (process diff matches jwt_verify (Connect c) w)).
Proof.
  cbn [process]. destruct (sockets w !! c) as [s|] eqn:Hc; cbn [fst].
  { apply quiet_guarded, quiet_refl. }
  unfold on_connection, forbidNamespaceConnections, update_socket.
  cbn [sockets with_sockets with_nsps nsps]. rewrite lookup_insert_eq.
  cbn [new_socket authenticated negb].
  unfold with_sockets, with_nsps. cbn.
  apply (guarded_gate c _ _ []); [now rewrite app_nil_r|..].
  - intros x Hx. now rewrite lookup_alter_ne, lookup_insert_ne.
  - intros s. rewrite lookup_alter_eq, lookup_insert_eq. cbn.
    intros [= <-]. cbn. split; [reflexivity|discriminate].
  - unfold authed. rewrite Hc. discriminate.
  - intros (s & Hs & _). congruence.
  - intros Hinv ns n x. rewrite alter_alter_eq, lookup_alter.
    destruct (decide ("/" = ns)) as [<-|Hne].
    + destruct (nsps w !! "/") as [n0|] eqn:Hn; cbn; [|discriminate].
      intros [= <-]. cbn. intros Hx. right.
      apply elem_of_difference in Hx as [Hx Hxc].
      apply elem_of_union in Hx as [Hx|Hx]; [contradiction|].
      now apply (connected_authenticated w Hinv "/" n0).
    + intros Hn Hx. right. now apply (connected_authenticated w Hinv ns n).
  - intros x m [].
Qed.

Lemma quiet_NamespaceConnect ns c w :
  quiet w (fst (process diff matches jwt_verify (NamespaceConnect ns c) w)).
Proof.
  cbn [process]. unfold is_open, forbidNamespaceConnections.
  cbn [sockets with_nsps nsps].
  destruct (sockets w !! c) as [s|] eqn:Hc; [|apply quiet_refl].
  destruct (open s); cbn [fst]; [|apply quiet_refl].
  destruct (authenticated s) eqn:Ha; cbn [negb].
  - apply quiet_nsps. intros Hinv ns' n x. rewrite lookup_alter.
    destruct (decide (ns = ns')) as [<-|Hne];
      [|now apply (connected_authenticated w Hinv)].
    destruct (nsps w !! ns) as [n0|] eqn:Hn; cbn; [|discriminate].
    intros [= <-]. cbn. intros Hx.
    apply elem_of_union in Hx as [Hx|Hx].
    + apply elem_of_singleton in Hx as ->. now apply (authenticated_authed w c s).
    + now apply (connected_authenticated w Hinv ns n0).
  - apply (quiet_nsps _ w). intros Hinv ns' n x. rewrite alter_alter_eq, lookup_alter.
    destruct (decide (ns = ns')) as [<-|Hne];
      [|now apply (connected_authenticated w Hinv)].
    destruct (nsps w !! ns) as [n0|] eqn:Hn; cbn; [|discriminate].
    intros [= <-]. cbn. intros Hx.
    apply elem_of_difference in Hx as [Hx Hxc].
    apply elem_of_union in Hx as [Hx|Hx]; [contradiction|].
    now apply (connected_authenticated w Hinv ns n0).
Qed.

Lemma quiet_Broadcast ns name data w :
  quiet w (fst (process diff matches jwt_verify (Broadcast ns name data) w)).
Proof.
  cbn [process]. destruct (nsps w !! ns) as [n|] eqn:Hn; cbn [fst]; [|apply quiet_refl].
  unfold socket_emit.
  rewrite <- (with_effects_effects w) at 2.
  rewrite (fold_perform (fun x => SocketEmit x (Message FromBroadcast name [data] false))).
  apply quiet_effects. intros Hinv x m Hin.
  apply in_map_iff in Hin as (y & [= <- <-] & Hy).
  apply (connected_authenticated w Hinv ns n y Hn).
  apply elem_of_elements. now apply list_elem_of_In.
Qed.

Lemma quiet_process w e :
  match e with
  | ClientAction _ _ | ClientSubscribe _ _ | ClientUnsubscribe _ _
  | Disconnect _ | Acknowledge _ | Register _ _ _ | ServiceCall _ _
  | ServiceSubscribe _ _ | ServiceEmit _ _ => True
  | _ => False
  end ->
  quiet w (fst (process diff matches jwt_verify e w)).
Proof.
  destruct e as [c|ns c|c payload|c payload|c name|c name|c|c|c|ns name data
                |id r v|key data|name n|name data]; intros []; cbn [process].
  - destruct (is_open _ w); [|apply quiet_refl].
    apply quiet_for_each. intros. apply quiet_on_action.
  - destruct (is_open _ w); [|apply quiet_refl].
    apply quiet_for_each. intros. apply quiet_on_subscribe.
  - destruct (is_open _ w); [|apply quiet_refl].
    apply quiet_for_each. intros. apply quiet_on_unsubscribe.
  - destruct (sockets w !! c) as [s|]; [|apply quiet_refl].
    destruct (acks s) as [|n]; [apply quiet_refl|].
    destruct (open s); [|apply quiet_refl].
    eapply quiet_trans; [|eapply quiet_trans; [|apply quiet_close]].
    + apply (quiet_update_socket c (set_acks n)); intros s'; cbn; easy.
    + now apply quiet_perform.
  - destruct (is_open _ w); [|apply quiet_refl]. apply quiet_close.
  - apply quiet_registerReducer.
  - apply quiet_callAction.
  - cbn [fst]. apply quiet_subscribe. intros _ x. discriminate.
  - apply quiet_emitEvent.
Qed.

Lemma guarded_auth_emit c m w :
  msg_origin m = FromAuthGate -> guarded w (socket_emit c m w).
Proof.
  intros Hm Hinv. split; [|split].
  - destruct Hinv. constructor; assumption.
  - intros x. now split.
  - exists [SocketEmit c m]. split; [reflexivity|].
    intros x m' [[= <- <-]|[]]. unfold is_delivery. rewrite Hm. split; easy.
Qed.

Lemma guarded_Timeout c w :
  guarded w (fst (process diff matches jwt_verify (Timeout c) w)).
Proof.
  cbn [process]. destruct (sockets w !! c) as [s|]; [|apply quiet_guarded, quiet_refl].
  destruct (authTimeout s); cbn [fst]; try apply quiet_guarded, quiet_refl.
  unfold on_timeout.
  eapply quiet_then_guarded; [|now apply guarded_auth_emit].
  eapply quiet_trans; apply quiet_update_socket; intros s'; cbn; easy.
Qed.

Lemma guarded_Authenticate c payload w :
  guarded w (fst (process diff matches jwt_verify (Authenticate c payload) w)).
Proof.
  cbn [process]. unfold is_open.
  destruct (sockets w !! c) as [s|] eqn:Hc; [|apply quiet_guarded, quiet_refl].
  destruct (open s); [|apply quiet_guarded, quiet_refl].
  unfold on_authenticate.
  destruct (destructurable payload); cbn [negb]; [|apply quiet_guarded, quiet_refl].
  destruct (jwt_verify (get_field payload "token")) as [p|]; cbn [fst].
  - rewrite (world_frame w (socket_emit _ _ _)) by reflexivity.
    cbn [sockets nsps effects socket_emit perform with_effects restoreNamespaceConnection
         with_nsps onAuthentication update_socket with_sockets getState state].
    assert (Hs : forall f : socket -> socket,
               authenticated <$> alter f c (sockets w) !! c = Some (authenticated (f s)))
      by (intros f; now rewrite lookup_alter_eq, Hc).
    apply (guarded_gate c _ _
             [ClearTimeout c; Log LogClientConnected;
              SocketEmit c (initial_state_message (state w));
              SocketEmit c authenticated_message]).
    + now rewrite <- !app_assoc.
    + intros x Hx. now rewrite !lookup_alter_ne.
    + intros s'. rewrite !alter_alter_eq, lookup_alter_eq, Hc. cbn.
      intros [= <-]. cbn. split; [discriminate|].
      intros _. now destruct (authTimeout s).
    + intros _. now rewrite !alter_alter_eq, Hs.
    + intros _. rewrite !alter_alter_eq, lookup_alter_eq, Hc. cbn.
      eexists. split; [reflexivity|]. cbn. now destruct (authTimeout s).
    + intros Hinv ns n x. rewrite lookup_fmap.
      destruct (nsps w !! ns) as [n0|] eqn:Hn; cbn; [|discriminate].
      intros [= <-].
      destruct (bool_decide (c ∈ ns_sockets n0)); cbn.
      * intros Hx. apply elem_of_union in Hx as [Hx|Hx].
        -- left. apply elem_of_singleton in Hx. split; [assumption|].
           now rewrite !alter_alter_eq, Hs.
        -- right. now apply (connected_authenticated w Hinv ns n0).
      * intros Hx. right. now apply (connected_authenticated w Hinv ns n0).
    + intros x m [Hin|[Hin|[Hin|[Hin|[]]]]]; try discriminate;
        injection Hin as <- <-; (split; [reflexivity|]); intros Hm.
      * split; [reflexivity|]. now rewrite !alter_alter_eq, Hs.
      * now destruct Hm.
  - eapply quiet_then_guarded; [|now apply guarded_auth_emit].
    eapply quiet_trans; [|apply quiet_update_socket; intros s'; cbn; easy].
    eapply quiet_trans; [|now apply quiet_perform].
    eapply quiet_trans; [|now apply quiet_perform].
    apply quiet_update_socket; intros s'; cbn; try easy.
    now destruct (authTimeout s').
Qed.

(** Every step of the server is guarded. *)
Lemma guarded_process e w : guarded w (fst (process diff matches jwt_verify e w)).
Proof.
  destruct e; try (apply quiet_guarded, quiet_process; exact I).
  - apply guarded_Connect.
  - apply quiet_guarded, quiet_NamespaceConnect.
  - apply guarded_Authenticate.
  - apply guarded_Timeout.
  - apply quiet_guarded, quiet_Broadcast.
Qed.

Lemma gate_invariant_init initial names : gate_invariant (init initial names).
Proof.
  constructor; cbn [init sockets any_listeners on_listeners nsps].
  - intros c s. now rewrite lookup_empty.
  - intros l c [].
  - intros ns n c Hn. apply lookup_gset_to_gmap_Some in Hn as [_ <-].
    cbn. intros Hc. now apply not_elem_of_empty in Hc.
  - intros c s. now rewrite lookup_empty.
Qed.

Lemma run_snoc es e w :
  run diff matches jwt_verify (es ++ [e]) w
  = fst (process diff matches jwt_verify e (run diff matches jwt_verify es w)).
Proof. unfold run. now rewrite fold_left_app. Qed.

(** The invariant holds in every state the server reaches, and in such a
    state a socket that is not authenticated has been sent nothing but
    messages of the auth gate. *)
Lemma reachable_gate_invariant initial names es :
  let w := run diff matches jwt_verify es (init initial names) in
  gate_invariant w
  /\ forall c m, In (SocketEmit c m) (effects w) ->
                msg_origin m <> FromAuthGate -> authed w c.
Proof.
  induction es as [|e es IH] using rev_ind; cbn zeta.
  - split; [apply gate_invariant_init|]. intros c m [].
  - rewrite run_snoc. cbn zeta in IH. destruct IH as [Hinv Hsent].
    destruct (guarded_process e _ Hinv) as (Hinv' & Hmono & new & Heff & Hnew).
    split; [assumption|]. intros c m. rewrite Heff, in_app_iff.
    intros [Hin|Hin] Hm.
    + apply (Hmono c). now apply (Hsent c m).
    + now apply (Hnew c m Hin).
Qed.

Lemma run_app es later w :
  run diff matches jwt_verify (es ++ later) w
  = run diff matches jwt_verify later (run diff matches jwt_verify es w).
Proof. unfold run. now rewrite fold_left_app. Qed.



End Gates.

(** ** What a client is sent, and when *)

Lemma is_open_update_socket c c' f w :
  (forall s, open (f s) = open s) -> is_open c' (update_socket c f w) = is_open c' w.
Proof.
  intros Hf. unfold is_open. cbn [update_socket with_sockets sockets].
  rewrite lookup_alter. destruct (decide (c = c')) as [->|]; [|reflexivity].
  destruct (sockets w !! c') as [s|]; cbn; [apply Hf|reflexivity].
Qed.

Lemma is_open_unsubscribe_all c (subs : subscriptions) : forall w,
  is_open c (fold_left (fun acc p => unsubscribe (fst p) (snd p) acc) subs w) = is_open c w.
Proof.
  induction subs as [|p subs IH]; intros w; cbn [fold_left]; [reflexivity|].
  rewrite IH. unfold unsubscribe. now destruct (String.eqb (fst p) "*").
Qed.

Lemma is_open_on_disconnect c c' i w :
  is_open c' (fst (on_disconnect c i w)) = is_open c' w.
Proof.
  unfold on_disconnect.
  destruct (session_of c i _) as [[subs|]|]; cbn [fst]; try reflexivity.
  unfold set_session. rewrite is_open_update_socket by reflexivity.
  now rewrite is_open_unsubscribe_all.
Qed.

Lemma is_open_for_each_disconnect c c' idx : forall w,
  is_open c' (fst (for_each idx (on_disconnect c) w)) = is_open c' w.
Proof.
  induction idx as [|i idx IH]; intros w; cbn [for_each fst]; [reflexivity|].
  pose proof (is_open_on_disconnect c c' i w) as Hi.
  destruct (on_disconnect c i w) as [w' []]; cbn [fst] in *.
  - now rewrite IH.
  - assumption.
Qed.

(** A closed socket is not open. *)
Lemma close_not_open c w : is_open c (fst (close c w)) = false.
Proof.
  unfold close. rewrite is_open_for_each_disconnect.
  unfold is_open. cbn [update_socket with_sockets with_nsps sockets].
  rewrite lookup_alter_eq. now destruct (sockets w !! c).
Qed.

Section Connections.

Variable diff : value -> value -> list (string * value).
Variable matches : string -> string -> bool.
Variable jwt_verify : value -> option value.

Lemma pending_not_authed w c : pending w c -> ~ authed w c.
Proof. unfold pending, authed. intros ->. discriminate. Qed.

(** C1.  In every state the server reaches, a connection whose gate is
    pending has been sent nothing but messages of the auth gate, is in no
    [connected] table, has no relay among the listeners, so that no
    publish calls one, and is sent no delivery of a publish or of a
    broadcast by whatever the server does next.  Its [subscribe] messages
    are not even handled, the handlers being added on authentication. *)
Theorem pending_connection_gets_no_delivery initial names es c :
  let w := run diff matches jwt_verify es (init initial names) in
  pending w c ->
  (forall m, In (SocketEmit c m) (effects w) -> msg_origin m = FromAuthGate)
  /\ (forall ns n, nsps w !! ns = Some n -> c ∉ ns_connected n)
  /\ (forall topic payload m, ~ In (SocketEmit c m) (publish matches w topic payload))
  /\ (forall name, process diff matches jwt_verify (ClientSubscribe c name) w
                   = (w, Returned))
  /\ (forall e, exists new,
        effects (fst (process diff matches jwt_verify e w)) = effects w ++ new
        /\ forall m, In (SocketEmit c m) new -> is_delivery m = false).
Proof.
  intros w Hp.
  destruct (reachable_gate_invariant diff matches jwt_verify initial names es)
    as [Hinv Hsent]. fold w in Hinv, Hsent.
  pose proof (pending_not_authed w c Hp) as Hna.
  split; [|split; [|split; [|split]]].
  - intros m Hin. destruct (msg_origin m) eqn:Hm; try reflexivity;
      destruct Hna; apply (Hsent c m Hin); rewrite Hm; discriminate.
  - intros ns n Hn Hc. apply Hna. now apply (connected_authenticated w Hinv ns n).
  - intros topic payload m Hin. apply publish_target in Hin as (l & Hl & Ht).
    apply Hna. now apply (relays_authenticated w Hinv l).
  - intros name. cbn [process]. unfold is_open, session_indices.
    unfold pending in Hp. destruct (sockets w !! c) as [s|] eqn:Hs; [|reflexivity].
    injection Hp as Hp.
    rewrite (pending_no_session w Hinv c s Hs Hp). cbn. now destruct (open s).
  - intros e.
    destruct (guarded_process diff matches jwt_verify e w Hinv)
      as (_ & _ & new & Heff & Hnew).
    exists new. split; [assumption|]. intros m Hin.
    destruct (is_delivery m) eqn:Hd; [|reflexivity].
    destruct Hna. now apply (Hnew c m Hin).
Qed.

Lemma open_socket c w : is_open c w = true -> exists s, sockets w !! c = Some s /\ open s = true.
Proof. unfold is_open. destruct (sockets w !! c) as [s|]; [eauto|discriminate]. Qed.

(** What the handling of an [authenticate] message emits, and what it
    does to the gate. *)
Lemma initial_state_effects w c payload :
  let w' := fst (process diff matches jwt_verify (Authenticate c payload) w) in
  is_open c w = true ->
  destructurable payload = true ->
  effects w'
  = effects w
    ++ match jwt_verify (get_field payload "token") with
       | Some _ => [ClearTimeout c; Log LogClientConnected;
                    SocketEmit c (initial_state_message (getState w));
                    SocketEmit c authenticated_message]
       | None => [ClearTimeout c; Log LogNotAuthorized;
                  SocketEmit c (unauthorized_message "INVALID_TOKEN")]
       end
  /\ match jwt_verify (get_field payload "token") with
     | Some _ => authed w' c
     | None => authenticated <$> sockets w' !! c = authenticated <$> sockets w !! c
     end.
Proof.
  intros w' Hopen Hd. split.
  - subst w'. cbn [process]. rewrite Hopen. unfold on_authenticate. rewrite Hd.
    cbn [negb]. destruct (jwt_verify (get_field payload "token")); cbn [fst];
      cbn [effects socket_emit perform with_effects restoreNamespaceConnection
           with_nsps onAuthentication update_socket with_sockets getState state];
      now rewrite <- !app_assoc.
  - subst w'. cbn [process]. rewrite Hopen. unfold on_authenticate. rewrite Hd.
    cbn [negb]. apply open_socket in Hopen as (s & Hs & _).
    destruct (jwt_verify (get_field payload "token")); cbn [fst]; unfold authed;
      cbn [sockets socket_emit perform with_effects restoreNamespaceConnection
           with_nsps onAuthentication update_socket with_sockets].
    + now rewrite !alter_alter_eq, lookup_alter_eq, Hs.
    + now rewrite !alter_alter_eq, lookup_alter_eq, Hs.
Qed.

(** C8, as the code has it.  A transport connect sends nothing.  The
    [initial-state] message with the current snapshot goes out while the
    [authenticate] message of the connection is handled, when the token
    verifies, before the [authenticated] acknowledgement; when the token
    does not verify there is no [initial-state]; and a connection whose
    gate is pending has never been sent one. *)
Theorem initial_state_sent_on_authentication initial names es c payload :
  let w := run diff matches jwt_verify es (init initial names) in
  let w' := fst (process diff matches jwt_verify (Authenticate c payload) w) in
  is_open c w = true ->
  destructurable payload = true ->
  (forall c', effects (fst (process diff matches jwt_verify (Connect c') w)) = effects w)
  /\ effects w'
     = effects w
       ++ match jwt_verify (get_field payload "token") with
          | Some _ => [ClearTimeout c; Log LogClientConnected;
                       SocketEmit c (initial_state_message (getState w));
                       SocketEmit c authenticated_message]
          | None => [ClearTimeout c; Log LogNotAuthorized;
                     SocketEmit c (unauthorized_message "INVALID_TOKEN")]
          end
  /\ match jwt_verify (get_field payload "token") with
     | Some _ => authed w' c
     | None => authenticated <$> sockets w' !! c = authenticated <$> sockets w !! c
     end
  /\ (forall x m, In (SocketEmit x m) (effects w) -> msg_origin m = FromGateway ->
                  authed w x).
Proof.
  intros w w' Hopen Hd.
  destruct (initial_state_effects w c payload Hopen Hd) as [Heff Hauth].
  split; [|split; [|split]].
  - intros c'. cbn [process]. destruct (sockets w !! c'); [reflexivity|].
    unfold on_connection, forbidNamespaceConnections.
    cbn [fst update_socket with_sockets with_nsps sockets effects].
    rewrite lookup_insert_eq. reflexivity.
  - exact Heff.
  - exact Hauth.
  - intros x m Hin Hm.
    destruct (reachable_gate_invariant diff matches jwt_verify initial names es)
      as [_ Hsent].
    apply (Hsent x m Hin). rewrite Hm. discriminate.
Qed.



End Connections.

(** ** The gate on sample runs *)

Lemma pending_connection_gets_no_delivery_witness :
  let w := serve [Connect "c1"; ClientSubscribe "c1" "*";
                  Register "COUNTER:INCREMENT" counter_reducer counter_validator;
                  ServiceCall (VString "counter:increment") (amount 5)] in
  pending w "c1"
  /\ forall m, In (SocketEmit "c1" m) (effects w) -> msg_origin m = FromAuthGate.
Proof.
  cbv zeta.
  assert (H : pending (serve [Connect "c1"; ClientSubscribe "c1" "*";
                              Register "COUNTER:INCREMENT" counter_reducer counter_validator;
                              ServiceCall (VString "counter:increment") (amount 5)]) "c1")
    by (vm_compute; reflexivity).
  split; [exact H|].
  exact (proj1 (pending_connection_gets_no_delivery DiffEngine exact_topic one_token
                  _ _ _ "c1" H)).
Defined.

(** C8, as the specification has it, fails: a transport connect sends
    nothing, and the connection stays pending without an [initial-state]
    message. *)
Lemma connect_sends_no_initial_state :
  let w := serve [Connect "c1"] in
  is_open "c1" w = true /\ pending w "c1" /\ effects w = [].
Proof. vm_compute. repeat split. Qed.

Lemma initial_state_sent_on_authentication_witness :
  let w := serve [Connect "c1"] in
  let w' := fst (process DiffEngine exact_topic one_token
                   (Authenticate "c1" (credentials "valid")) w) in
  is_open "c1" w = true
  /\ destructurable (credentials "valid") = true
  /\ effects w'
     = [ClearTimeout "c1"; Log LogClientConnected;
        SocketEmit "c1" (initial_state_message (VObject [("count", VNumber 0)]));
        SocketEmit "c1" authenticated_message].
Proof.
  cbv zeta.
  assert (H : is_open "c1" (serve [Connect "c1"]) = true) by (vm_compute; reflexivity).
  split; [exact H|]. split; [reflexivity|].
  exact (proj1 (proj2 (initial_state_sent_on_authentication DiffEngine exact_topic one_token
                         _ _ [Connect "c1"] "c1" (credentials "valid") H eq_refl))).
Defined.



(** ** Scenarios *)

(** The counter: after [COUNTER:INCREMENT] with [{ amount: 5 }] the state
    has [count] 5 and a listener on [update:count] is called with
    [{ state: { count: 5 } }]. *)
Example counter_scenario :
  let w := serve [Register "COUNTER:INCREMENT" counter_reducer counter_validator;
                  ServiceSubscribe "update:count" 0;
                  ServiceCall (VString "COUNTER:INCREMENT") (amount 5)] in
  getState w = VObject [("count", VNumber 5)]
  /\ In (Invoke 0 [VObject [("state", VObject [("count", VNumber 5)])]]) (effects w).
Proof. vm_compute. split; [reflexivity|]. right. right. right. now left. Qed.

(** A client that subscribes to ['*'] after it has authenticated is relayed
    the three publishes of a dispatch under [all-events]. *)
Example subscription_after_authentication :
  let w := serve [Register "COUNTER:INCREMENT" counter_reducer counter_validator;
                  Connect "c1"; Authenticate "c1" (credentials "valid");
                  ClientSubscribe "c1" "*";
                  ServiceCall (VString "COUNTER:INCREMENT") (amount 5)] in
  map (fun r => (fst r, msg_event (snd r))) (relayed (effects w))
  = [("c1", "all-events"); ("c1", "all-events"); ("c1", "all-events")].
Proof. vm_compute. reflexivity. Qed.

(** A [subscribe] message that comes before the authentication finds no
    handler: the client is relayed nothing afterwards either, until it
    subscribes again. *)
Example subscription_before_authentication :
  let w := serve [Register "COUNTER:INCREMENT" counter_reducer counter_validator;
                  Connect "c1"; ClientSubscribe "c1" "*";
                  Authenticate "c1" (credentials "valid");
                  ServiceCall (VString "COUNTER:INCREMENT") (amount 5)] in
  authed w "c1" /\ any_listeners w = [] /\ relayed (effects w) = [].
Proof. vm_compute. repeat split. Qed.

(** * Further properties of the code *)

(** ** app/state/index.js: registry and emitter *)

Lemma filter_filter_same {A} (f : A -> bool) (l : list A) :
  List.filter f (List.filter f l) = List.filter f l.
Proof.
  induction l as [|x l IH]; [reflexivity|]. cbn.
  destruct (f x) eqn:E; cbn; [rewrite E|]; now rewrite IH.
Qed.

(** X1.  The function [subscribe] returns can be called any number of
    times: after the first call a further call changes nothing (every call
    of [subscribe] being given a function object of its own, as the gateway
    gives it). *)
Theorem unsubscribe_twice name id w :
  unsubscribe name id (unsubscribe name id w) = unsubscribe name id w.
Proof.
  unfold unsubscribe. destruct (String.eqb name "*");
    unfold with_listeners; cbn [actions state on_listeners any_listeners next_listener
                                sockets nsps effects];
    now rewrite filter_filter_same.
Qed.


(** X3.  Registering an id a second time replaces the first registration
    (the last one wins) and leaves the registrations under every other id
    alone. *)
Theorem registerReducer_last_wins id r1 v1 r2 v2 id' w :
  registerReducer id r2 v2 (registerReducer id r1 v1 w) = registerReducer id r2 v2 w
  /\ (if String.eqb id id' then True
      else actions (registerReducer id r1 v1 w) !! id' = actions w !! id').
Proof.
  unfold registerReducer. destruct (String.eqb id "__proto__") eqn:P.
  - split; [reflexivity|]. now destruct (String.eqb id id').
  - split.
    + unfold with_actions. cbn [actions state on_listeners any_listeners next_listener
                                 sockets nsps effects].
      now rewrite insert_insert_eq.
    + destruct (String.eqb id id') eqn:E; [exact I|].
      apply String.eqb_neq in E. cbn [actions with_actions].
      now rewrite lookup_insert_ne.
Qed.

(** X4.  [callAction] does not care how the action key is spelled: two keys
    with the same uppercase form end the same way, commit the same state
    and publish the same events. *)
Theorem callAction_ignores_case diff matches k k' data w :
  toUpperCase k = toUpperCase k' ->
  let r := callAction diff matches (VString k) data w in
  let r' := callAction diff matches (VString k') data w in
  snd r = snd r'
  /\ getState (fst r) = getState (fst r')
  /\ publishes (effects (fst r)) = publishes (effects (fst r'))
  /\ assignments (effects (fst r)) = assignments (effects (fst r')).
Proof.
  intros Hk. cbn zeta. rewrite !callAction_string. cbn zeta. rewrite <- Hk.
  destruct (actions w !! toUpperCase k) as [a|].
  - destruct (truthy (validate a data)); cbn [fst snd getState state effects
                                              with_effects with_state];
      repeat split; now rewrite ?publishes_app, ?assignments_app.
  - cbn [fst snd getState state effects with_effects].
    repeat split; now rewrite ?publishes_app, ?assignments_app.
Qed.

Lemma callAction_ignores_case_witness :
  toUpperCase "Counter:Increment" = toUpperCase "counter:increment"
  /\ getState (fst (callAction DiffEngine exact_topic (VString "Counter:Increment")
                      (amount 5) counter_world))
     = getState (fst (callAction DiffEngine exact_topic (VString "counter:increment")
                        (amount 5) counter_world)).
Proof.
  split; [reflexivity|].
  exact (proj1 (proj2 (callAction_ignores_case DiffEngine exact_topic
                         "Counter:Increment" "counter:increment" (amount 5)
                         counter_world eq_refl))).
Defined.

(** X5.  What a dispatch that goes through leaves in the store is the own
    properties of what the reducer returned: an object is committed as it
    is, and a reducer that returns [undefined], [null], a boolean or a
    number empties the state. *)
Theorem callAction_commits_own_properties diff matches k data w a :
  actions w !! toUpperCase k = Some a ->
  truthy (validate a data) = true ->
  getState (fst (callAction diff matches (VString k) data w))
  = match reducer a (state w) data with
    | VObject props => VObject props
    | VUndefined | VNull | VBool _ | VNumber _ => VObject []
    | other => Object_assign_empty other
    end.
Proof.
  intros Hk Hv. rewrite callAction_string. cbn zeta. rewrite Hk, Hv.
  cbn [fst getState state with_effects with_state].
  now destruct (reducer a (state w) data).
Qed.

Lemma callAction_commits_own_properties_witness :
  actions counter_world !! toUpperCase "counter:increment"
  = Some (Action counter_reducer counter_validator)
  /\ truthy (counter_validator (amount 5)) = true
  /\ getState (fst (callAction DiffEngine exact_topic (VString "counter:increment")
                      (amount 5) counter_world))
     = VObject [("count", VNumber 5)].
Proof.
  assert (H : actions counter_world !! toUpperCase "counter:increment"
              = Some (Action counter_reducer counter_validator))
    by (vm_compute; reflexivity).
  split; [exact H|]. split; [reflexivity|].
  exact (callAction_commits_own_properties DiffEngine exact_topic "counter:increment"
           (amount 5) counter_world _ H eq_refl).
Defined.

(** ** app/services: the reducers and validators *)

Lemma lookup_prop_assign_prop_eq k (v : value) l :
  lookup_prop k (assign_prop k v l) = Some v.
Proof.
  induction l as [|[k' v'] l IH]; cbn.
  - now rewrite String.eqb_refl.
  - destruct (String.eqb k k') eqn:E; cbn; [now rewrite String.eqb_refl|now rewrite E].
Qed.

Lemma lookup_prop_assign_prop_ne k k' (v : value) l :
  k <> k' -> lookup_prop k' (assign_prop k v l) = lookup_prop k' l.
Proof.
  intros Hne. induction l as [|[k0 v0] l IH]; cbn.
  - destruct (String.eqb k' k) eqn:E; [|reflexivity].
    apply String.eqb_eq in E. congruence.
  - destruct (String.eqb k k0) eqn:E; cbn.
    + apply String.eqb_eq in E. subst k0.
      destruct (String.eqb k' k) eqn:E'; [|reflexivity].
      apply String.eqb_eq in E'. congruence.
    + now rewrite IH.
Qed.

Lemma existsb_key_assign_prop k k' (v : value) l :
  existsb (fun p => String.eqb (fst p) k') (assign_prop k v l)
  = String.eqb k k' || existsb (fun p => String.eqb (fst p) k') l.
Proof.
  induction l as [|[k0 v0] l IH]; cbn.
  - now rewrite orb_false_r.
  - destruct (String.eqb k k0) eqn:E; cbn.
    + apply String.eqb_eq in E. subst k0. now destruct (String.eqb k k').
    + rewrite IH. destruct (String.eqb k0 k'), (String.eqb k k'); reflexivity.
Qed.

(** X6.  A dispatch of [BAHN:UPDATE], in any spelling, sets the top-level
    key [bahn] to the payload when the payload is an object or an array and
    leaves every other top-level key as it was; for any other payload the
    state stays as it is, also for [null], which passes the validator's
    [typeof] test but is returned by it and is falsy. *)
Theorem bahn_update_sets_bahn_only diff matches k data key w :
  toUpperCase k = "BAHN:UPDATE" ->
  actions w !! "BAHN:UPDATE" = Some (Action bahn_reducer bahn_validate) ->
  let w' := fst (callAction diff matches (VString k) data w) in
  match data with
  | VObject _ | VArray _ =>
      top_level (getState w') "bahn" = data
      /\ (if String.eqb "bahn" key then True
          else top_level (getState w') key = top_level (getState w) key)
  | _ => getState w' = getState w
  end.
Proof.
  intros Hk Ha. cbn zeta. rewrite callAction_string. cbn zeta. rewrite Hk, Ha.
  cbn [validate reducer].
  assert (Hother : forall s d,
             "bahn" <> key ->
             top_level (Object_assign_empty (bahn_reducer s d)) key = top_level s key).
  { intros s d Hne. unfold top_level, bahn_reducer. cbn.
    now rewrite lookup_prop_assign_prop_ne. }
  assert (Hbahn : forall s d,
             top_level (Object_assign_empty (bahn_reducer s d)) "bahn" = d).
  { intros s d. unfold top_level, bahn_reducer. cbn.
    now rewrite lookup_prop_assign_prop_eq. }
  destruct data; cbn [bahn_validate truthy fst getState state with_effects with_state];
    try reflexivity.
  - split; [apply Hbahn|].
    destruct (String.eqb "bahn" key) eqn:E; [exact I|].
    apply String.eqb_neq in E. now apply Hother.
  - split; [apply Hbahn|].
    destruct (String.eqb "bahn" key) eqn:E; [exact I|].
    apply String.eqb_neq in E. now apply Hother.
Qed.

Lemma bahn_update_sets_bahn_only_witness :
  toUpperCase "bahn:update" = "BAHN:UPDATE"
  /\ actions bahn_world !! "BAHN:UPDATE" = Some (Action bahn_reducer bahn_validate)
  /\ getState (fst (callAction DiffEngine exact_topic (VString "bahn:update") VNull
                      bahn_world))
     = getState bahn_world.
Proof.
  assert (H : actions bahn_world !! "BAHN:UPDATE" = Some (Action bahn_reducer bahn_validate))
    by (vm_compute; reflexivity).
  split; [reflexivity|]. split; [exact H|].
  exact (bahn_update_sets_bahn_only DiffEngine exact_topic "bahn:update" VNull "count"
           bahn_world eq_refl H).
Defined.

(** X7.  The validator of [SPOTIFY:UPDATE-TOKEN] throws on a payload that
    is not an object or an array; otherwise it accepts exactly the objects
    that have all of [accessToken], [expiresAt] and [refreshToken], and
    then returns the payload itself. *)
Theorem spotify_validate_accepts data :
  match data with
  | VObject props =>
      let has := fun name => existsb (fun p => String.eqb (fst p) name) props in
      spotify_validate data
      = Some (if has "accessToken" && has "expiresAt" && has "refreshToken"
              then data else VBool false)
  | VArray _ => spotify_validate data = Some (VBool false)
  | _ => spotify_validate data = None
  end.
Proof.
  destruct data; try reflexivity. unfold spotify_validate. cbn.
  now destruct (existsb _ props), (existsb _ props), (existsb _ props).
Qed.

(** X8.  The reducer of [SPOTIFY:UPDATE-TOKEN] writes the three token
    fields of the payload into [state.spotify], keeps every other field of
    [state.spotify] and every other top-level key of the state. *)
Theorem spotify_update_merges state data key :
  destructurable data = true ->
  destructurable state = true ->
  exists state',
    spotify_update state data = Some state'
    /\ get_field (top_level state' "spotify") "accessToken" = get_field data "accessToken"
    /\ get_field (top_level state' "spotify") "expiresAt" = get_field data "expiresAt"
    /\ get_field (top_level state' "spotify") "refreshToken" = get_field data "refreshToken"
    /\ (if existsb (String.eqb key) ["accessToken"; "expiresAt"; "refreshToken"] then True
        else lookup_prop key (own_props (top_level state' "spotify"))
             = lookup_prop key (own_props (get_field state "spotify")))
    /\ (if String.eqb "spotify" key then True
        else top_level state' key = top_level state key).
Proof.
  intros Hd Hs. unfold spotify_update. rewrite Hd, Hs. cbn [negb orb].
  eexists. split; [reflexivity|].
  unfold top_level at 1 2 3 4. cbn [own_props]. rewrite lookup_prop_assign_prop_eq.
  cbn [default get_field own_props]. unfold id. cbn [get_field own_props].
  repeat split.
  - rewrite !lookup_prop_assign_prop_ne by discriminate.
    now rewrite lookup_prop_assign_prop_eq.
  - rewrite lookup_prop_assign_prop_ne by discriminate.
    now rewrite lookup_prop_assign_prop_eq.
  - now rewrite lookup_prop_assign_prop_eq.
  - cbn [existsb]. rewrite orb_false_r.
    destruct (String.eqb key "accessToken") eqn:E1; [exact I|].
    destruct (String.eqb key "expiresAt") eqn:E2; [exact I|].
    destruct (String.eqb key "refreshToken") eqn:E3; [exact I|].
    apply String.eqb_neq in E1, E2, E3. cbn [orb].
    now rewrite !lookup_prop_assign_prop_ne by congruence.
  - destruct (String.eqb "spotify" key) eqn:E; [exact I|].
    apply String.eqb_neq in E. unfold top_level. cbn [own_props].
    now rewrite lookup_prop_assign_prop_ne.
Qed.

Lemma spotify_update_merges_witness :
  let state := VObject [("spotify", VObject [("device", VString "desk")]);
                        ("count", VNumber 0)] in
  let data := VObject [("accessToken", VString "a"); ("expiresAt", VNumber 10);
                       ("refreshToken", VString "r")] in
  destructurable data = true
  /\ destructurable state = true
  /\ exists state',
       spotify_update state data = Some state'
       /\ get_field (top_level state' "spotify") "accessToken" = VString "a".
Proof.
  cbv zeta. split; [reflexivity|]. split; [reflexivity|].
  destruct (spotify_update_merges
              (VObject [("spotify", VObject [("device", VString "desk")]);
                        ("count", VNumber 0)])
              (VObject [("accessToken", VString "a"); ("expiresAt", VNumber 10);
                        ("refreshToken", VString "r")])
              "device" eq_refl eq_refl) as (state' & Hu & Ha & _).
  exists state'. split; [exact Hu|exact Ha].
Defined.

(** ** The gate does not close again *)

(** X9.  A socket that is authenticated stays authenticated whatever
    happens afterwards: no later message, not even an [authenticate] with a
    token that does not verify, takes [socket.authenticated] back. *)
Theorem authentication_is_permanent diff matches jwt_verify initial names es later c :
  let w := run diff matches jwt_verify es (init initial names) in
  authed w c -> authed (run diff matches jwt_verify later w) c.
Proof.
  cbn zeta. intros Hc. induction later as [|e later IH] using rev_ind; [exact Hc|].
  rewrite run_snoc.
  destruct (reachable_gate_invariant diff matches jwt_verify initial names (es ++ later))
    as [Hinv _].
  cbn zeta in Hinv. rewrite run_app in Hinv.
  destruct (guarded_process diff matches jwt_verify e _ Hinv) as (_ & Hmono & _).
  now apply (Hmono c).
Qed.

Lemma authentication_is_permanent_witness :
  let w := serve [Connect "c1"; Authenticate "c1" (credentials "valid")] in
  authed w "c1"
  /\ authed (run DiffEngine exact_topic one_token
               [Authenticate "c1" (credentials "forged"); Timeout "c1"] w) "c1".
Proof.
  cbv zeta.
  assert (H : authed (serve [Connect "c1"; Authenticate "c1" (credentials "valid")]) "c1")
    by (vm_compute; reflexivity).
  split; [exact H|].
  exact (authentication_is_permanent DiffEngine exact_topic one_token _ _
           [Connect "c1"; Authenticate "c1" (credentials "valid")]
           [Authenticate "c1" (credentials "forged"); Timeout "c1"] "c1" H).
Defined.

(** ** The tables *)

Lemma same_gate_view_refl w : same_gate_view w w.
Proof. now split. Qed.

Lemma same_gate_view_trans w1 w2 w3 :
  same_gate_view w1 w2 -> same_gate_view w2 w3 -> same_gate_view w1 w3.
Proof.
  intros [N1 G1] [N2 G2]. split; [congruence|]. intros c. now rewrite G2, G1.
Qed.

Lemma same_table_view_refl w : same_table_view w w.
Proof. now repeat split. Qed.

Lemma same_table_view_trans w1 w2 w3 :
  same_table_view w1 w2 -> same_table_view w2 w3 -> same_table_view w1 w3.
Proof.
  intros (A1 & B1 & C1 & D1) (A2 & B2 & C2 & D2).
  split; [congruence|]. split; [congruence|]. split; [congruence|].
  intros c. now rewrite D2, D1.
Qed.

Lemma same_gate_view_socket w w' c s' :
  same_gate_view w w' -> sockets w' !! c = Some s' ->
  exists s, sockets w !! c = Some s /\ gate_view s = gate_view s'.
Proof.
  intros [_ G] Hs'. specialize (G c). rewrite Hs' in G.
  destruct (sockets w !! c) as [s|]; [|discriminate].
  cbn in G. exists s. split; [reflexivity|congruence].
Qed.

Lemma same_gate_view_authed w w' c : same_gate_view w w' -> authed w' c <-> authed w c.
Proof.
  intros [_ G]. specialize (G c). unfold authed.
  destruct (sockets w' !! c) as [s'|], (sockets w !! c) as [s|]; cbn in *; try discriminate;
    [|reflexivity].
  assert (E : authenticated s' = authenticated s) by (unfold gate_view in G; congruence).
  now rewrite E.
Qed.

Lemma same_gate_view_is_open w w' c : same_gate_view w w' -> is_open c w' = is_open c w.
Proof.
  intros [_ G]. specialize (G c). unfold is_open.
  destruct (sockets w' !! c) as [s'|], (sockets w !! c) as [s|]; cbn in *; try discriminate;
    [|reflexivity].
  unfold gate_view in G. congruence.
Qed.

Lemma namespace_tables_view w w' :
  same_gate_view w w' -> namespace_tables w -> namespace_tables w'.
Proof.
  intros Hv [H1 H2]. pose proof Hv as [Hn _]. constructor; rewrite Hn.
  - intros ns n c Hns. rewrite (same_gate_view_authed w w' c Hv). exact (H1 ns n c Hns).
  - intros ns n c Hns Hc. rewrite (same_gate_view_is_open w w' c Hv).
    exact (H2 ns n c Hns Hc).
Qed.

Lemma tokens_verified_view jwt_verify w w' :
  same_gate_view w w' -> tokens_verified jwt_verify w -> tokens_verified jwt_verify w'.
Proof.
  intros Hv H c s' Hs' Ha.
  destruct (same_gate_view_socket w w' c s' Hv Hs') as (s & Hs & Hg).
  unfold gate_view in Hg.
  assert (E1 : authenticated s = authenticated s') by congruence.
  assert (E3 : jwt s = jwt s') by congruence.
  assert (E4 : jwtPayload s = jwtPayload s') by congruence.
  rewrite <- E3, <- E4. apply (H c s Hs). congruence.
Qed.

Lemma emitter_tables_view w w' :
  same_table_view w w' -> emitter_tables w -> emitter_tables w'.
Proof.
  intros (Ho & Ha & Hn & Hs) [H1 H2 H3 H4 H5 H6].
  constructor; rewrite ?Ho, ?Ha, ?Hn; try assumption.
  - intros l c Hl Ht. rewrite Hs. now apply H4.
  - intros c i subs. rewrite Hs. apply H5.
  - intros c i subs k. rewrite Hs. apply H6.
Qed.

Lemma session_flags_view w w' :
  same_gate_view w w' -> (forall c, sessions_of c w' = sessions_of c w) ->
  session_flags w -> session_flags w'.
Proof.
  intros Hv Hs H c i x. rewrite Hs, (same_gate_view_is_open w w' c Hv). apply H.
Qed.

Lemma same_tables_refl w : same_tables w w.
Proof. now repeat split. Qed.

Lemma same_tables_trans w1 w2 w3 : same_tables w1 w2 -> same_tables w2 w3 -> same_tables w1 w3.
Proof. unfold same_tables. intuition congruence. Qed.

Lemma same_tables_views w w' :
  same_tables w w' -> same_gate_view w w' /\ same_table_view w w'.
Proof.
  intros (A & B & C & D & E). unfold same_gate_view, same_table_view, sessions_of.
  rewrite A, B, C, D, E. now repeat split.
Qed.

Lemma tables_invariant_same jwt_verify w w' :
  same_gate_view w w' -> same_table_view w w' ->
  tables_invariant jwt_verify w -> tables_invariant jwt_verify w'.
Proof.
  intros Hg Ht [H1 H2 H3 H4]. constructor.
  - now apply (emitter_tables_view w).
  - now apply (namespace_tables_view w).
  - apply (session_flags_view w); [assumption|apply Ht|assumption].
  - now apply (tokens_verified_view jwt_verify w).
Qed.

Lemma for_each_rel (R : world -> world -> Prop) idx (h : nat -> world -> world * outcome) :
  (forall w, R w w) -> (forall w1 w2 w3, R w1 w2 -> R w2 w3 -> R w1 w3) ->
  (forall i w, R w (fst (h i w))) ->
  forall w, R w (fst (for_each idx h w)).
Proof.
  intros Hrefl Htrans Hh. induction idx as [|i idx IH]; intros w; cbn [for_each fst].
  - apply Hrefl.
  - pose proof (Hh i w) as Hi. destruct (h i w) as [w' []]; cbn [fst] in *.
    + now apply (Htrans _ w').
    + assumption.
Qed.

Section Tables.

Variable diff : value -> value -> list (string * value).
Variable matches : string -> string -> bool.
Variable jwt_verify : value -> option value.

Lemma same_tables_callAction key data w :
  same_tables w (fst (callAction diff matches key data w)).
Proof.
  destruct key;
    try (unfold callAction; cbn [call_toUpperCase]; destruct (template_ok _);
         now repeat split).
  rewrite callAction_string. cbn zeta.
  destruct (actions w !! toUpperCase s) as [a|]; [|now repeat split].
  destruct (truthy (validate a data)); now repeat split.
Qed.

Lemma same_tables_emitEvent name data w : same_tables w (emitEvent matches name data w).
Proof. unfold emitEvent. rewrite emit_eq. now repeat split. Qed.

Lemma same_tables_registerReducer id r v w : same_tables w (registerReducer id r v w).
Proof. unfold registerReducer. destruct (String.eqb id "__proto__"); now repeat split. Qed.

Lemma same_tables_on_action payload w :
  same_tables w (fst (on_action diff matches payload w)).
Proof.
  unfold on_action. destruct (destructurable payload); cbn [negb fst];
    [|apply same_tables_refl].
  destruct (template_ok _); cbn [negb fst]; [|apply same_tables_refl].
  eapply same_tables_trans; [|apply same_tables_callAction]. now repeat split.
Qed.

Lemma same_tables_Broadcast ns name data w :
  same_tables w (fst (process diff matches jwt_verify (Broadcast ns name data) w)).
Proof.
  cbn [process]. destruct (nsps w !! ns) as [n|]; cbn [fst]; [|apply same_tables_refl].
  unfold socket_emit. rewrite <- (with_effects_effects w) at 2.
  rewrite (fold_perform (fun x => SocketEmit x (Message FromBroadcast name [data] false))).
  now repeat split.
Qed.

(** Changing a socket without touching its gate, or its [subscriptions]. *)
Lemma same_gate_view_update_socket c f w :
  (forall s, gate_view (f s) = gate_view s) -> same_gate_view w (update_socket c f w).
Proof.
  intros Hf. split; [reflexivity|]. intros c'.
  cbn [update_socket with_sockets sockets]. rewrite lookup_alter.
  destruct (decide (c = c')) as [->|]; [|reflexivity].
  destruct (sockets w !! c') as [s|]; cbn; [|reflexivity]. now rewrite Hf.
Qed.

Lemma sessions_of_update_socket c c' f w :
  sessions_of c' (update_socket c f w)
  = match sockets w !! c' with
    | Some s => if decide (c = c') then sessions (f s) else sessions s
    | None => []
    end.
Proof.
  unfold sessions_of. cbn [update_socket with_sockets sockets]. rewrite lookup_alter.
  destruct (decide (c = c')) as [->|]; [|reflexivity].
  now destruct (sockets w !! c').
Qed.

Lemma same_table_view_update_socket c f w :
  (forall s, sessions (f s) = sessions s) -> same_table_view w (update_socket c f w).
Proof.
  intros Hf. repeat split. intros c'. rewrite sessions_of_update_socket.
  unfold sessions_of. destruct (sockets w !! c') as [s|]; [|reflexivity].
  destruct (decide (c = c')); [apply Hf|reflexivity].
Qed.

Lemma sessions_of_set_session c c' i x w :
  sessions_of c' (set_session c i x w)
  = if decide (c = c') then <[i := x]> (sessions_of c w) else sessions_of c' w.
Proof.
  unfold set_session. rewrite sessions_of_update_socket. unfold sessions_of.
  destruct (decide (c = c')) as [->|]; destruct (sockets w !! c') as [s|]; reflexivity.
Qed.

Lemma session_of_sessions_of c i w : session_of c i w = sessions_of c w !! i.
Proof. unfold session_of, sessions_of. now destruct (sockets w !! c). Qed.

Lemma same_gate_view_set_session c i x w : same_gate_view w (set_session c i x w).
Proof. now apply same_gate_view_update_socket. Qed.

Lemma same_gate_view_sockets w w' :
  sockets w' = sockets w -> nsps w' = nsps w -> same_gate_view w w'.
Proof. intros Hs Hn. split; [assumption|]. intros c. now rewrite Hs. Qed.

Lemma same_gate_view_unsubscribe_all (subs : subscriptions) : forall w,
  same_gate_view w (fold_left (fun acc p => unsubscribe (fst p) (snd p) acc) subs w).
Proof.
  induction subs as [|p subs IH]; intros w; cbn [fold_left]; [apply same_gate_view_refl|].
  eapply same_gate_view_trans; [|apply IH].
  apply same_gate_view_sockets; unfold unsubscribe; now destruct (String.eqb (fst p) "*").
Qed.

Lemma same_gate_view_on_subscribe c name i w :
  same_gate_view w (fst (on_subscribe c name i w)).
Proof.
  unfold on_subscribe. destruct (session_of c i w) as [[subs|]|];
    cbn [fst]; try apply same_gate_view_refl.
  destruct (in_subscriptions name subs); cbn [fst]; [apply same_gate_view_refl|].
  destruct (subscribe name _ _) as [w2 handle] eqn:Hsub. cbn [fst].
  eapply same_gate_view_trans; [|apply same_gate_view_set_session].
  replace w2 with (fst (subscribe name
                          (if String.eqb name "*" then relayAllEvents c
                           else relaySingleEvent c name)
                          (perform (Log (LogClientSubscribed name)) w)))
    by now rewrite Hsub.
  apply same_gate_view_sockets; unfold subscribe; now destruct (String.eqb name "*").
Qed.

Lemma same_gate_view_on_unsubscribe c name i w :
  same_gate_view w (fst (on_unsubscribe c name i w)).
Proof.
  unfold on_unsubscribe. destruct (session_of c i w) as [[subs|]|];
    cbn [fst]; try apply same_gate_view_refl.
  destruct (in_subscriptions name subs); cbn [negb fst]; [|apply same_gate_view_refl].
  destruct (lookup_handle name subs) as [handle|]; cbn [fst].
  - eapply same_gate_view_trans; [|apply same_gate_view_set_session].
    apply same_gate_view_sockets; unfold unsubscribe; now destruct (String.eqb name "*").
  - destruct (inherited_call_throws name); now apply same_gate_view_sockets.
Qed.

Lemma same_gate_view_on_disconnect c i w :
  same_gate_view w (fst (on_disconnect c i w)).
Proof.
  unfold on_disconnect.
  destruct (session_of c i _) as [[subs|]|]; cbn [fst];
    try now apply same_gate_view_sockets.
  eapply same_gate_view_trans; [|apply same_gate_view_set_session].
  eapply same_gate_view_trans; [|apply same_gate_view_unsubscribe_all].
  now apply same_gate_view_sockets.
Qed.

Lemma on_subscribe_tables c name i w subs :
  session_of c i w = Some (Some subs) ->
  in_subscriptions name subs = false ->
  let w' := fst (on_subscribe c name i w) in
  let l := Listener (next_listener w) name
             (if String.eqb name "*" then relayAllEvents c else relaySingleEvent c name) in
  next_listener w' = S (next_listener w)
  /\ any_listeners w'
     = (if String.eqb name "*" then any_listeners w ++ [l] else any_listeners w)
  /\ on_listeners w'
     = (if String.eqb name "*" then on_listeners w else on_listeners w ++ [l])
  /\ forall c', sessions_of c' w'
                = if decide (c = c')
                  then <[i := Some (subs ++ [(name, next_listener w)])]> (sessions_of c w)
                  else sessions_of c' w.
Proof.
  intros Hs Hin. cbn zeta. unfold on_subscribe. rewrite Hs, Hin. unfold subscribe.
  destruct (String.eqb name "*"); cbn [fst];
    (split; [reflexivity|]); (split; [reflexivity|]); (split; [reflexivity|]);
    intros c'; now rewrite sessions_of_set_session.
Qed.

Lemma not_in_subscriptions name (subs : subscriptions) :
  in_subscriptions name subs = false -> ~ In name (map fst subs).
Proof.
  unfold in_subscriptions. intros H Hin. apply orb_false_elim in H as [H _].
  apply in_map_iff in Hin as (p & <- & Hp).
  assert (E : existsb (fun q => String.eqb (fst q) (fst p)) subs = true).
  { apply existsb_exists. exists p. split; [assumption|apply String.eqb_refl]. }
  congruence.
Qed.

Lemma emitter_tables_on_subscribe c name i w :
  emitter_tables w -> emitter_tables (fst (on_subscribe c name i w)).
Proof.
  intros Hinv.
  destruct (session_of c i w) as [[subs|]|] eqn:Hs;
    try (unfold on_subscribe; rewrite Hs; exact Hinv).
  destruct (in_subscriptions name subs) eqn:Hin;
    [unfold on_subscribe; rewrite Hs, Hin; exact Hinv|].
  destruct (on_subscribe_tables c name i w subs Hs Hin) as (Hn & Ha & Ho & Hss).
  cbn zeta in Hn, Ha, Ho, Hss.
  set (w' := fst (on_subscribe c name i w)) in *.
  set (l0 := Listener (next_listener w) name _) in *.
  rewrite session_of_sessions_of in Hs.
  assert (Hi : i < length (sessions_of c w)) by (eapply lookup_lt_Some; exact Hs).
  destruct Hinv as [H1 H2 H3 H4 H5 H6].
  assert (Hall : forall l, In l (any_listeners w' ++ on_listeners w') ->
                           In l (any_listeners w ++ on_listeners w) \/ l = l0).
  { intros l. rewrite Ha, Ho. destruct (String.eqb name "*");
      rewrite !in_app_iff; cbn [In]; intuition. }
  constructor.
  - intros l Hl. rewrite Hn. destruct (Hall l Hl) as [Hold| ->].
    + specialize (H1 l Hold). lia.
    + cbn. lia.
  - intros l. rewrite Ha. destruct (String.eqb name "*") eqn:E; [|apply H2].
    rewrite in_app_iff. intros [Hl|[<-|[]]]; [now apply H2|].
    cbn. now apply String.eqb_eq in E.
  - intros l. rewrite Ho. destruct (String.eqb name "*") eqn:E; [apply H3|].
    rewrite in_app_iff. intros [Hl|[<-|[]]]; [now apply H3|].
    cbn. now apply String.eqb_neq in E.
  - intros l c' Hl Ht. rewrite Hss. destruct (Hall l Hl) as [Hold| ->].
    + destruct (H4 l c' Hold Ht) as (j & subs' & Hj & Hp).
      destruct (decide (c = c')) as [<-|]; [|eauto].
      destruct (decide (i = j)) as [<-|Hne].
      * exists i, (subs ++ [(name, next_listener w)]).
        rewrite list_lookup_insert_eq by assumption. split; [reflexivity|].
        pose proof (eq_trans (eq_sym Hj) Hs) as E. injection E as ->.
        apply in_app_iff. now left.
      * exists j, subs'. now rewrite list_lookup_insert_ne.
    + assert (c' = c) as ->
        by (subst l0; cbn in Ht; destruct (String.eqb name "*"); cbn in Ht; congruence).
      rewrite decide_True by reflexivity.
      exists i, (subs ++ [(name, next_listener w)]).
      rewrite list_lookup_insert_eq by assumption. split; [reflexivity|].
      apply in_app_iff. right. now left.
  - intros c' j subs'. rewrite Hss.
    destruct (decide (c = c')) as [<-|]; [|apply H5].
    destruct (decide (i = j)) as [<-|Hne].
    + rewrite list_lookup_insert_eq by assumption. intros [= <-].
      rewrite map_app. cbn [map fst]. apply NoDup_app. split; [now apply (H5 c i)|].
      split; [|apply NoDup_singleton].
      intros x Hx Hx'. apply list_elem_of_In in Hx, Hx'. destruct Hx' as [<-|[]].
      now apply (not_in_subscriptions name subs).
    + rewrite list_lookup_insert_ne by assumption. apply H5.
  - intros c' j subs' k. rewrite Hss.
    destruct (decide (c = c')) as [<-|]; [|apply H6].
    destruct (decide (i = j)) as [<-|Hne].
    + rewrite list_lookup_insert_eq by assumption. intros [= <-].
      rewrite map_app, in_app_iff. cbn [map fst In].
      intros [Hk|[<-|[]]]; [now apply (H6 c i subs)|].
      unfold in_subscriptions in Hin. now apply orb_false_elim in Hin.
    + rewrite list_lookup_insert_ne by assumption. apply H6.
Qed.

Lemma lookup_handle_NoDup name h (subs : subscriptions) :
  NoDup (map fst subs) -> In (name, h) subs -> lookup_handle name subs = Some h.
Proof.
  induction subs as [|[k h'] subs IH]; cbn [lookup_handle map fst In]; [easy|].
  intros Hnd [E|Hin].
  - injection E as -> ->. now rewrite String.eqb_refl.
  - inversion Hnd as [|? ? Hk Hnd']; subst.
    destruct (String.eqb k name) eqn:E; [|now apply IH].
    apply String.eqb_eq in E as ->. exfalso. apply Hk.
    apply list_elem_of_In, in_map_iff. now exists (name, h).
Qed.

Lemma NoDup_map_filter {A B} (g : A -> B) (f : A -> bool) (l : list A) :
  NoDup (map g l) -> NoDup (map g (List.filter f l)).
Proof.
  induction l as [|a l IH]; cbn [List.filter map]; [easy|].
  intros Hnd. inversion Hnd as [|? ? Hn Hnd']; subst.
  destruct (f a); cbn [map]; [|now apply IH].
  constructor; [|now apply IH].
  intros Hin. apply Hn. apply list_elem_of_In.
  apply list_elem_of_In, in_map_iff in Hin as (b & <- & Hb).
  apply filter_In in Hb as [Hb _]. now apply in_map.
Qed.

Lemma on_unsubscribe_tables c name i w subs handle :
  session_of c i w = Some (Some subs) ->
  in_subscriptions name subs = true ->
  lookup_handle name subs = Some handle ->
  let w' := fst (on_unsubscribe c name i w) in
  let keep := fun l => negb (Nat.eqb (l_id l) handle) in
  next_listener w' = next_listener w
  /\ any_listeners w'
     = (if String.eqb name "*" then List.filter keep (any_listeners w) else any_listeners w)
  /\ on_listeners w'
     = (if String.eqb name "*" then on_listeners w
        else List.filter (fun l => keep l || negb (String.eqb (l_event l) name))
                         (on_listeners w))
  /\ forall c', sessions_of c' w'
                = if decide (c = c')
                  then <[i := Some (delete_handle name subs)]> (sessions_of c w)
                  else sessions_of c' w.
Proof.
  intros Hs Hin Hl. cbn zeta. unfold on_unsubscribe. rewrite Hs, Hin. cbn [negb].
  rewrite Hl. unfold unsubscribe.
  destruct (String.eqb name "*"); cbn [fst];
    (split; [reflexivity|]); (split; [reflexivity|]); (split; [reflexivity|]);
    intros c'; now rewrite sessions_of_set_session.
Qed.

Lemma emitter_tables_on_unsubscribe c name i w :
  emitter_tables w -> emitter_tables (fst (on_unsubscribe c name i w)).
Proof.
  intros Hinv.
  destruct (session_of c i w) as [[subs|]|] eqn:Hs;
    try (unfold on_unsubscribe; rewrite Hs; exact Hinv).
  destruct (in_subscriptions name subs) eqn:Hin;
    [|unfold on_unsubscribe; rewrite Hs, Hin; exact Hinv].
  destruct (lookup_handle name subs) as [handle|] eqn:Hl.
  2:{ unfold on_unsubscribe. rewrite Hs, Hin. cbn [negb]. rewrite Hl.
      apply (emitter_tables_view w); [|assumption].
      destruct (inherited_call_throws name); now repeat split. }
  destruct (on_unsubscribe_tables c name i w subs handle Hs Hin Hl) as (Hn & Ha & Ho & Hss).
  cbn zeta in Hn, Ha, Ho, Hss.
  set (w' := fst (on_unsubscribe c name i w)) in *.
  rewrite session_of_sessions_of in Hs.
  assert (Hi : i < length (sessions_of c w)) by (eapply lookup_lt_Some; exact Hs).
  destruct Hinv as [H1 H2 H3 H4 H5 H6].
  assert (Hany : forall l, In l (any_listeners w') -> In l (any_listeners w)).
  { intros l. rewrite Ha. destruct (String.eqb name "*"); [|easy].
    intros Hl'. now apply filter_In in Hl'. }
  assert (Hon : forall l, In l (on_listeners w') -> In l (on_listeners w)).
  { intros l. rewrite Ho. destruct (String.eqb name "*"); [easy|].
    intros Hl'. now apply filter_In in Hl'. }
  assert (Hall : forall l, In l (any_listeners w' ++ on_listeners w') ->
                           In l (any_listeners w ++ on_listeners w)).
  { intros l. rewrite !in_app_iff. intros [?|?]; auto. }
  assert (Hgone : forall l, In l (any_listeners w' ++ on_listeners w') ->
                            l_event l = name -> l_id l <> handle).
  { intros l Hl' He Hid. apply in_app_iff in Hl' as [Hl'|Hl'].
    - pose proof (H2 l (Hany l Hl')) as Hw. rewrite Ha in Hl'.
      assert (E : String.eqb name "*" = true) by (apply String.eqb_eq; congruence).
      rewrite E in Hl'. apply filter_In in Hl' as [_ Hk].
      rewrite Hid, Nat.eqb_refl in Hk. discriminate.
    - pose proof (H3 l (Hon l Hl')) as Hw. rewrite Ho in Hl'.
      assert (E : String.eqb name "*" = false) by (apply String.eqb_neq; congruence).
      rewrite E in Hl'. apply filter_In in Hl' as [_ Hk].
      rewrite Hid, Nat.eqb_refl, He, String.eqb_refl in Hk. discriminate. }
  constructor.
  - intros l Hl'. rewrite Hn. apply H1, Hall, Hl'.
  - intros l Hl'. apply H2, Hany, Hl'.
  - intros l Hl'. apply H3, Hon, Hl'.
  - intros l c' Hl' Ht. rewrite Hss.
    destruct (H4 l c' (Hall l Hl') Ht) as (j & subs' & Hj & Hp).
    destruct (decide (c = c')) as [<-|]; [|eauto].
    destruct (decide (i = j)) as [<-|Hne].
    + exists i, (delete_handle name subs).
      rewrite list_lookup_insert_eq by assumption. split; [reflexivity|].
      pose proof (eq_trans (eq_sym Hj) Hs) as E. injection E as ->.
      unfold delete_handle. apply filter_In. split; [assumption|]. cbn [fst].
      destruct (String.eqb (l_event l) name) eqn:E; [|reflexivity].
      apply String.eqb_eq in E. exfalso. apply (Hgone l Hl' E).
      rewrite <- E in Hl.
      pose proof (lookup_handle_NoDup (l_event l) (l_id l) subs (H5 c i subs Hs) Hp) as Hh.
      congruence.
    + exists j, subs'. now rewrite list_lookup_insert_ne.
  - intros c' j subs'. rewrite Hss.
    destruct (decide (c = c')) as [<-|]; [|apply H5].
    destruct (decide (i = j)) as [<-|Hne].
    + rewrite list_lookup_insert_eq by assumption. intros [= <-].
      apply NoDup_map_filter. now apply (H5 c i).
    + rewrite list_lookup_insert_ne by assumption. apply H5.
  - intros c' j subs' k. rewrite Hss.
    destruct (decide (c = c')) as [<-|]; [|apply H6].
    destruct (decide (i = j)) as [<-|Hne].
    + rewrite list_lookup_insert_eq by assumption. intros [= <-].
      intros Hk. apply in_map_iff in Hk as (q & <- & Hq).
      unfold delete_handle in Hq. apply filter_In in Hq as [Hq _].
      apply (H6 c i subs); [assumption|]. now apply in_map.
    + rewrite list_lookup_insert_ne by assumption. apply H6.
Qed.

Lemma unsubscribe_tables name id w :
  let w' := unsubscribe name id w in
  next_listener w' = next_listener w /\ sockets w' = sockets w /\ nsps w' = nsps w
  /\ (forall l, In l (any_listeners w') ->
                In l (any_listeners w) /\ ("*", l_id l) <> (name, id))
  /\ (forall l, In l (on_listeners w') ->
                In l (on_listeners w)
                /\ (l_event l <> "*" -> (l_event l, l_id l) <> (name, id))).
Proof.
  cbn zeta. unfold unsubscribe. destruct (String.eqb name "*") eqn:E;
    cbn [with_listeners next_listener sockets nsps any_listeners on_listeners];
    (split; [reflexivity|]); (split; [reflexivity|]); (split; [reflexivity|]); split; intros l Hl.
  - apply filter_In in Hl as [Hl Hk]. split; [assumption|]. intros [= _ Hid].
    rewrite Hid, Nat.eqb_refl in Hk. discriminate.
  - split; [assumption|]. apply String.eqb_eq in E. intros Hne. congruence.
  - split; [assumption|]. apply String.eqb_neq in E. congruence.
  - apply filter_In in Hl as [Hl Hk]. split; [assumption|]. intros _ [= He Hid].
    rewrite Hid, Nat.eqb_refl, He, String.eqb_refl in Hk. discriminate.
Qed.

Lemma unsubscribe_all_tables (subs : subscriptions) : forall w,
  let w' := fold_left (fun acc p => unsubscribe (fst p) (snd p) acc) subs w in
  next_listener w' = next_listener w /\ sockets w' = sockets w /\ nsps w' = nsps w
  /\ (forall l, In l (any_listeners w') ->
                In l (any_listeners w) /\ ~ In ("*", l_id l) subs)
  /\ (forall l, In l (on_listeners w') ->
                In l (on_listeners w)
                /\ (l_event l <> "*" -> ~ In (l_event l, l_id l) subs)).
Proof.
  induction subs as [|[k h] subs IH]; intros w; cbn [fold_left fst snd].
  - cbn zeta. repeat split; auto.
  - specialize (IH (unsubscribe k h w)). cbn zeta in IH.
    destruct IH as (A & B & C & D & E).
    destruct (unsubscribe_tables k h w) as (A1 & B1 & C1 & D1 & E1). cbn zeta in *.
    split; [congruence|]. split; [congruence|]. split; [congruence|]. split; intros l Hl.
    + destruct (D l Hl) as [Hl1 Hn]. destruct (D1 l Hl1) as [Hl2 Hp].
      split; [assumption|]. intros [Heq|Hin]; [congruence|contradiction].
    + destruct (E l Hl) as [Hl1 Hn]. destruct (E1 l Hl1) as [Hl2 Hp].
      split; [assumption|]. intros Hne [Heq|Hin]; [|now apply Hn].
      apply (Hp Hne). congruence.
Qed.

Lemma on_disconnect_tables c i w subs :
  session_of c i w = Some (Some subs) ->
  let w' := fst (on_disconnect c i w) in
  next_listener w' = next_listener w
  /\ (forall l, In l (any_listeners w') ->
                In l (any_listeners w) /\ ~ In ("*", l_id l) subs)
  /\ (forall l, In l (on_listeners w') ->
                In l (on_listeners w)
                /\ (l_event l <> "*" -> ~ In (l_event l, l_id l) subs))
  /\ forall c', sessions_of c' w'
                = if decide (c = c') then <[i := None]> (sessions_of c w)
                  else sessions_of c' w.
Proof.
  intros Hs. cbn zeta. unfold on_disconnect. cbn zeta.
  change (session_of c i (perform (Log LogClientDisconnected) w)) with (session_of c i w).
  rewrite Hs. cbn [fst].
  destruct (unsubscribe_all_tables subs (perform (Log LogClientDisconnected) w))
    as (A & B & C & D & E). cbn zeta in *.
  split; [exact A|]. split; [exact D|]. split; [exact E|].
  intros c'. rewrite sessions_of_set_session. unfold sessions_of. now rewrite B.
Qed.

Lemma emitter_tables_on_disconnect c i w :
  emitter_tables w -> emitter_tables (fst (on_disconnect c i w)).
Proof.
  intros Hinv.
  destruct (session_of c i w) as [[subs|]|] eqn:Hs.
  2,3: unfold on_disconnect; cbn zeta;
       change (session_of c i (perform (Log LogClientDisconnected) w)) with (session_of c i w);
       rewrite Hs; apply (emitter_tables_view w); [now repeat split|assumption].
  destruct (on_disconnect_tables c i w subs Hs) as (Hn & Ha & Ho & Hss).
  cbn zeta in Hn, Ha, Ho, Hss.
  set (w' := fst (on_disconnect c i w)) in *.
  rewrite session_of_sessions_of in Hs.
  assert (Hi : i < length (sessions_of c w)) by (eapply lookup_lt_Some; exact Hs).
  destruct Hinv as [H1 H2 H3 H4 H5 H6].
  assert (Hall : forall l, In l (any_listeners w' ++ on_listeners w') ->
                           In l (any_listeners w ++ on_listeners w)).
  { intros l. rewrite !in_app_iff. intros [Hl|Hl]; [left; apply Ha|right; apply Ho]; exact Hl. }
  constructor.
  - intros l Hl'. rewrite Hn. apply H1, Hall, Hl'.
  - intros l Hl'. apply H2, Ha, Hl'.
  - intros l Hl'. apply H3, Ho, Hl'.
  - intros l c' Hl' Ht. rewrite Hss.
    destruct (H4 l c' (Hall l Hl') Ht) as (j & subs' & Hj & Hp).
    destruct (decide (c = c')) as [<-|]; [|eauto].
    destruct (decide (i = j)) as [<-|Hne].
    + exfalso. pose proof (eq_trans (eq_sym Hj) Hs) as E. injection E as ->.
      apply in_app_iff in Hl' as [Hl'|Hl'].
      * destruct (Ha l Hl') as [Hold Hno]. apply Hno. now rewrite <- (H2 l Hold).
      * destruct (Ho l Hl') as [Hold Hno]. now apply (Hno (H3 l Hold)).
    + exists j, subs'. now rewrite list_lookup_insert_ne.
  - intros c' j subs'. rewrite Hss.
    destruct (decide (c = c')) as [<-|]; [|apply H5].
    destruct (decide (i = j)) as [<-|Hne].
    + now rewrite list_lookup_insert_eq by assumption.
    + rewrite list_lookup_insert_ne by assumption. apply H5.
  - intros c' j subs' k. rewrite Hss.
    destruct (decide (c = c')) as [<-|]; [|apply H6].
    destruct (decide (i = j)) as [<-|Hne].
    + now rewrite list_lookup_insert_eq by assumption.
    + rewrite list_lookup_insert_ne by assumption. apply H6.
Qed.

Lemma for_each_inv (P : world -> Prop) idx (h : nat -> world -> world * outcome) :
  (forall i w, P w -> P (fst (h i w))) ->
  forall w, P w -> P (fst (for_each idx h w)).
Proof.
  intros Hh. induction idx as [|i idx IH]; intros w Hw; cbn [for_each fst]; [assumption|].
  pose proof (Hh i w Hw) as Hi. destruct (h i w) as [w' []]; cbn [fst] in *.
  - now apply IH.
  - assumption.
Qed.

(** Replacing a [subscriptions] object by another one. *)
Lemma session_flags_insert c i subs subs' w w' :
  same_gate_view w w' ->
  sessions_of c w !! i = Some (Some subs) ->
  (forall c', sessions_of c' w'
              = if decide (c = c') then <[i := Some subs']> (sessions_of c w)
                else sessions_of c' w) ->
  session_flags w -> session_flags w'.
Proof.
  intros Hv Hs Hss H c' j x. rewrite Hss, (same_gate_view_is_open w w' c' Hv).
  destruct (decide (c = c')) as [<-|]; [|apply H].
  destruct (decide (i = j)) as [<-|Hne].
  - rewrite list_lookup_insert_eq by (eapply lookup_lt_Some; exact Hs). intros [= <-].
    specialize (H c i _ Hs). now destruct (is_open c w).
  - rewrite list_lookup_insert_ne by assumption. apply H.
Qed.

Lemma session_flags_on_subscribe c name i w :
  session_flags w -> session_flags (fst (on_subscribe c name i w)).
Proof.
  intros Hinv.
  destruct (session_of c i w) as [[subs|]|] eqn:Hs;
    try (unfold on_subscribe; rewrite Hs; exact Hinv).
  destruct (in_subscriptions name subs) eqn:Hin;
    [unfold on_subscribe; rewrite Hs, Hin; exact Hinv|].
  destruct (on_subscribe_tables c name i w subs Hs Hin) as (_ & _ & _ & Hss).
  cbn zeta in Hss. rewrite session_of_sessions_of in Hs.
  exact (session_flags_insert c i subs _ w _ (same_gate_view_on_subscribe c name i w)
           Hs Hss Hinv).
Qed.

Lemma session_flags_on_unsubscribe c name i w :
  session_flags w -> session_flags (fst (on_unsubscribe c name i w)).
Proof.
  intros Hinv.
  destruct (session_of c i w) as [[subs|]|] eqn:Hs;
    try (unfold on_unsubscribe; rewrite Hs; exact Hinv).
  destruct (in_subscriptions name subs) eqn:Hin;
    [|unfold on_unsubscribe; rewrite Hs, Hin; exact Hinv].
  destruct (lookup_handle name subs) as [handle|] eqn:Hl.
  2:{ apply (session_flags_view w); [apply same_gate_view_on_unsubscribe| |assumption].
      intros c'. unfold on_unsubscribe. rewrite Hs, Hin. cbn [negb]. rewrite Hl.
      now destruct (inherited_call_throws name). }
  destruct (on_unsubscribe_tables c name i w subs handle Hs Hin Hl) as (_ & _ & _ & Hss).
  cbn zeta in Hss. rewrite session_of_sessions_of in Hs.
  exact (session_flags_insert c i subs _ w _ (same_gate_view_on_unsubscribe c name i w)
           Hs Hss Hinv).
Qed.

Lemma tables_invariant_on_subscribe c name i w :
  tables_invariant jwt_verify w ->
  tables_invariant jwt_verify (fst (on_subscribe c name i w)).
Proof.
  intros [H1 H2 H3 H4]. constructor.
  - now apply emitter_tables_on_subscribe.
  - apply (namespace_tables_view w); [apply same_gate_view_on_subscribe|assumption].
  - now apply session_flags_on_subscribe.
  - apply (tokens_verified_view jwt_verify w); [apply same_gate_view_on_subscribe|assumption].
Qed.

Lemma tables_invariant_on_unsubscribe c name i w :
  tables_invariant jwt_verify w ->
  tables_invariant jwt_verify (fst (on_unsubscribe c name i w)).
Proof.
  intros [H1 H2 H3 H4]. constructor.
  - now apply emitter_tables_on_unsubscribe.
  - apply (namespace_tables_view w); [apply same_gate_view_on_unsubscribe|assumption].
  - now apply session_flags_on_unsubscribe.
  - apply (tokens_verified_view jwt_verify w); [apply same_gate_view_on_unsubscribe|assumption].
Qed.

Lemma tables_invariant_same_tables w w' :
  same_tables w w' -> tables_invariant jwt_verify w -> tables_invariant jwt_verify w'.
Proof.
  intros H. destruct (same_tables_views w w' H). now apply tables_invariant_same.
Qed.

(** A listener of a service in the emitter. *)
Lemma tables_invariant_ServiceSubscribe name n w :
  tables_invariant jwt_verify w ->
  tables_invariant jwt_verify (fst (subscribe name (serviceListener n) w)).
Proof.
  intros [[H1 H2 H3 H4 H5 H6] Hn Hf Ht].
  set (w' := fst (subscribe name (serviceListener n) w)).
  set (l0 := Listener (next_listener w) name (serviceListener n)).
  assert (Hs : sockets w' = sockets w)
    by (unfold w', subscribe; now destruct (String.eqb name "*")).
  assert (Hp : nsps w' = nsps w)
    by (unfold w', subscribe; now destruct (String.eqb name "*")).
  assert (Hnext : next_listener w' = S (next_listener w))
    by (unfold w', subscribe; now destruct (String.eqb name "*")).
  assert (Ha : any_listeners w'
               = if String.eqb name "*" then any_listeners w ++ [l0] else any_listeners w)
    by (unfold w', subscribe; now destruct (String.eqb name "*")).
  assert (Ho : on_listeners w'
               = if String.eqb name "*" then on_listeners w else on_listeners w ++ [l0])
    by (unfold w', subscribe; now destruct (String.eqb name "*")).
  assert (Hss : forall c, sessions_of c w' = sessions_of c w)
    by (intros c; unfold sessions_of; now rewrite Hs).
  assert (Hall : forall l, In l (any_listeners w' ++ on_listeners w') ->
                           In l (any_listeners w ++ on_listeners w) \/ l = l0).
  { intros l. rewrite Ha, Ho. destruct (String.eqb name "*");
      rewrite !in_app_iff; cbn [In]; intuition. }
  pose proof (same_gate_view_sockets w w' Hs Hp) as Hv.
  constructor.
  - constructor.
    + intros l Hl. rewrite Hnext. destruct (Hall l Hl) as [Hold| ->].
      * specialize (H1 l Hold). lia.
      * cbn. lia.
    + intros l. rewrite Ha. destruct (String.eqb name "*") eqn:E; [|apply H2].
      rewrite in_app_iff. intros [Hl|[<-|[]]]; [now apply H2|].
      cbn. now apply String.eqb_eq in E.
    + intros l. rewrite Ho. destruct (String.eqb name "*") eqn:E; [apply H3|].
      rewrite in_app_iff. intros [Hl|[<-|[]]]; [now apply H3|].
      cbn. now apply String.eqb_neq in E.
    + intros l c Hl Htar. rewrite Hss. destruct (Hall l Hl) as [Hold| ->].
      * now apply (H4 l).
      * discriminate.
    + intros c i subs. rewrite Hss. apply H5.
    + intros c i subs k. rewrite Hss. apply H6.
  - now apply (namespace_tables_view w).
  - now apply (session_flags_view w).
  - now apply (tokens_verified_view jwt_verify w).
Qed.

(** The emitter tables when sockets get new, empty [subscriptions] objects
    and nothing else changes in the emitter and in the objects there are. *)
Lemma emitter_tables_sessions w w' :
  on_listeners w' = on_listeners w -> any_listeners w' = any_listeners w ->
  next_listener w' = next_listener w ->
  (forall c j subs, sessions_of c w !! j = Some (Some subs) ->
                    sessions_of c w' !! j = Some (Some subs)) ->
  (forall c j subs, sessions_of c w' !! j = Some (Some subs) ->
                    sessions_of c w !! j = Some (Some subs) \/ subs = []) ->
  emitter_tables w -> emitter_tables w'.
Proof.
  intros Ho Ha Hn Hfw Hbw [H1 H2 H3 H4 H5 H6].
  constructor; rewrite ?Ho, ?Ha, ?Hn; try assumption.
  - intros l c Hl Ht. destruct (H4 l c Hl Ht) as (j & subs & Hj & Hp).
    exists j, subs. split; [now apply Hfw|assumption].
  - intros c j subs Hj. destruct (Hbw c j subs Hj) as [Hold| ->].
    + now apply (H5 c j).
    + constructor.
  - intros c j subs k Hj. destruct (Hbw c j subs Hj) as [Hold| ->].
    + now apply (H6 c j).
    + intros [].
Qed.

Lemma session_indices_eq c w : session_indices c w = seq 0 (length (sessions_of c w)).
Proof. unfold session_indices, sessions_of. now destruct (sockets w !! c). Qed.

Lemma on_disconnect_returns c i w subs :
  session_of c i w = Some (Some subs) -> snd (on_disconnect c i w) = Returned.
Proof.
  intros Hs. unfold on_disconnect. cbn zeta.
  change (session_of c i (perform (Log LogClientDisconnected) w)) with (session_of c i w).
  now rewrite Hs.
Qed.

(** The [disconnect] listeners of a socket, run one after the other, set
    every [subscriptions] object of the socket to [null]. *)
Lemma disconnect_all c : forall m k w,
  length (sessions_of c w) = k + m ->
  (forall j, k <= j < k + m -> exists subs, sessions_of c w !! j = Some (Some subs)) ->
  let w' := fst (for_each (seq k m) (on_disconnect c) w) in
  length (sessions_of c w') = k + m
  /\ (forall j, k <= j < k + m -> sessions_of c w' !! j = Some None)
  /\ (forall j, j < k -> sessions_of c w' !! j = sessions_of c w !! j)
  /\ (forall c', c' <> c -> sessions_of c' w' = sessions_of c' w)
  /\ snd (for_each (seq k m) (on_disconnect c) w) = Returned.
Proof.
  induction m as [|m IH]; intros k w Hlen Hall; cbn [seq for_each fst snd].
  - cbn zeta. split; [assumption|]. split; [lia|]. now repeat split.
  - destruct (Hall k ltac:(lia)) as (subs & Hs). rewrite <- session_of_sessions_of in Hs.
    pose proof (on_disconnect_returns c k w subs Hs) as Hr.
    destruct (on_disconnect_tables c k w subs Hs) as (_ & _ & _ & Hss). cbn zeta in Hss.
    destruct (on_disconnect c k w) as [w1 o]. cbn [fst snd] in *. subst o.
    assert (Hc1 : sessions_of c w1 = <[k := None]> (sessions_of c w))
      by (rewrite Hss; now rewrite decide_True).
    specialize (IH (S k) w1). cbn zeta in IH.
    destruct IH as (L & N & B & O & R).
    + rewrite Hc1, length_insert. lia.
    + intros j Hj. rewrite Hc1, list_lookup_insert_ne by lia. apply Hall. lia.
    + split; [lia|]. split; [|split; [|split; [|exact R]]].
      * intros j Hj. destruct (decide (j = k)) as [->|].
        -- rewrite B by lia. rewrite Hc1. apply list_lookup_insert_eq. lia.
        -- apply N. lia.
      * intros j Hj. rewrite B by lia. rewrite Hc1. apply list_lookup_insert_ne. lia.
      * intros c' Hc'. rewrite O by assumption. rewrite Hss.
        now rewrite decide_False by congruence.
Qed.

Lemma close_sessions c w :
  session_flags w -> is_open c w = true ->
  let w' := fst (close c w) in
  (forall j x, sessions_of c w' !! j = Some x -> x = None)
  /\ (forall c', c' <> c -> sessions_of c' w' = sessions_of c' w)
  /\ snd (close c w) = Returned.
Proof.
  intros Hf Hopen. cbn zeta. unfold close. cbn zeta.
  set (w2 := update_socket c (set_open false) (with_nsps (ns_leave c <$> nsps w) w)).
  assert (Hss : forall c', sessions_of c' w2 = sessions_of c' w).
  { intros c'. unfold w2. rewrite sessions_of_update_socket.
    cbn [with_nsps sockets]. unfold sessions_of.
    destruct (sockets w !! c') as [s|]; [|reflexivity]. now destruct (decide (c = c')). }
  rewrite session_indices_eq.
  destruct (disconnect_all c (length (sessions_of c w2)) 0 w2) as (L & N & _ & O & R).
  - reflexivity.
  - intros j Hj. rewrite Hss in *.
    destruct (lookup_lt_is_Some_2 (sessions_of c w) j ltac:(lia)) as [x Hx].
    specialize (Hf c j x Hx). rewrite Hopen in Hf.
    destruct x as [subs|]; [eauto|contradiction].
  - cbn zeta in *. split; [|split; [|exact R]].
    + intros j x Hx. pose proof (lookup_lt_Some _ _ _ Hx) as Hj.
      rewrite N in Hx by lia. congruence.
    + intros c' Hc'. now rewrite O, Hss.
Qed.

Lemma tables_invariant_close c w :
  is_open c w = true -> tables_invariant jwt_verify w ->
  tables_invariant jwt_verify (fst (close c w)).
Proof.
  intros Hopen [He Hn Hf Ht].
  destruct (close_sessions c w Hf Hopen) as (Hnull & Hother & _).
  cbn zeta in Hnull, Hother.
  pose proof (close_not_open c w) as Hclosed.
  assert (Hopen' : forall c', c' <> c -> is_open c' (fst (close c w)) = is_open c' w).
  { intros c' Hc'. unfold close. rewrite is_open_for_each_disconnect.
    unfold is_open. cbn [update_socket with_sockets with_nsps sockets].
    now rewrite lookup_alter_ne. }
  unfold close in *. cbn zeta in *.
  set (w2 := update_socket c (set_open false) (with_nsps (ns_leave c <$> nsps w) w)) in *.
  assert (Hv : same_gate_view w2 (fst (for_each (session_indices c w2) (on_disconnect c) w2))).
  { apply (for_each_rel same_gate_view); [apply same_gate_view_refl
                                         |apply same_gate_view_trans|].
    intros i w0. apply same_gate_view_on_disconnect. }
  assert (Hauth : forall c', authed w2 c' <-> authed w c').
  { intros c'. unfold authed, w2. cbn [update_socket with_sockets with_nsps sockets].
    now rewrite alter_authenticated. }
  constructor.
  - apply for_each_inv; [intros i w0; apply emitter_tables_on_disconnect|].
    apply (emitter_tables_view w); [|assumption].
    repeat split. intros c'. unfold w2. rewrite sessions_of_update_socket.
    cbn [with_nsps sockets]. unfold sessions_of.
    destruct (sockets w !! c') as [s|]; [|reflexivity]. now destruct (decide (c = c')).
  - apply (namespace_tables_view w2); [exact Hv|].
    destruct Hn as [Hn1 Hn2]. constructor.
    + intros ns n' c'. cbn [w2 update_socket with_sockets with_nsps nsps].
      rewrite lookup_fmap. destruct (nsps w !! ns) as [n|] eqn:Hns; cbn; [|discriminate].
      intros [= <-]. cbn [ns_leave ns_connected ns_sockets].
      rewrite Hauth, !elem_of_difference, (Hn1 ns n c' Hns). tauto.
    + intros ns n' c'. cbn [w2 update_socket with_sockets with_nsps nsps].
      rewrite lookup_fmap. destruct (nsps w !! ns) as [n|] eqn:Hns; cbn; [|discriminate].
      intros [= <-]. cbn [ns_leave ns_sockets]. rewrite elem_of_difference.
      intros [Hc' Hne]. rewrite elem_of_singleton in Hne.
      unfold is_open. cbn [sockets w2 update_socket with_sockets with_nsps].
      rewrite lookup_alter_ne by congruence. exact (Hn2 ns n c' Hns Hc').
  - intros c' j x Hx. destruct (decide (c' = c)) as [->|Hne].
    + rewrite Hclosed. exact (Hnull j x Hx).
    + rewrite Hopen' by assumption. rewrite Hother in Hx by assumption.
      exact (Hf c' j x Hx).
  - apply (tokens_verified_view jwt_verify w2); [exact Hv|].
    intros c' s'. cbn [w2 update_socket with_sockets with_nsps sockets].
    rewrite lookup_alter. destruct (decide (c = c')) as [<-|]; [|apply Ht].
    destruct (sockets w !! c) as [s|] eqn:Hs; cbn; [|discriminate].
    intros [= <-]. cbn. exact (Ht c s Hs).
Qed.

Lemma tables_invariant_update_socket c f w :
  (forall s, gate_view (f s) = gate_view s) -> (forall s, sessions (f s) = sessions s) ->
  tables_invariant jwt_verify w -> tables_invariant jwt_verify (update_socket c f w).
Proof.
  intros Hg Hs. apply tables_invariant_same.
  - now apply same_gate_view_update_socket.
  - now apply same_table_view_update_socket.
Qed.

Lemma tables_invariant_perform e w :
  tables_invariant jwt_verify w -> tables_invariant jwt_verify (perform e w).
Proof. apply tables_invariant_same_tables. now repeat split. Qed.

Lemma tables_invariant_Connect c w :
  tables_invariant jwt_verify w ->
  tables_invariant jwt_verify (fst (process diff matches jwt_verify (Connect c) w)).
Proof.
  intros Hinv. cbn [process]. destruct (sockets w !! c) as [s|] eqn:Hc; cbn [fst];
    [assumption|].
  unfold on_connection, forbidNamespaceConnections, update_socket.
  cbn [sockets with_sockets with_nsps nsps]. rewrite lookup_insert_eq.
  cbn [new_socket authenticated negb].
  unfold with_sockets, with_nsps. cbn.
  set (w' := World _ _ _ _ _ _ _ _).
  destruct Hinv as [He [Hn1 Hn2] Hf Ht].
  assert (Hsc : sockets w' !! c = Some (Socket false Armed [] 0 true None None))
    by (cbn [w' sockets]; now rewrite lookup_alter_eq, lookup_insert_eq).
  assert (Hso : forall x, x <> c -> sockets w' !! x = sockets w !! x)
    by (intros x Hx; cbn [w' sockets]; now rewrite lookup_alter_ne, lookup_insert_ne).
  assert (Hss : forall x, sessions_of x w' = sessions_of x w).
  { intros x. unfold sessions_of. destruct (decide (x = c)) as [->|Hx].
    - now rewrite Hsc, Hc.
    - now rewrite Hso. }
  assert (Hnew : ~ authed w c) by (unfold authed; rewrite Hc; discriminate).
  assert (Hauth : forall x, authed w' x <-> authed w x).
  { intros x. unfold authed. destruct (decide (x = c)) as [->|Hx].
    - rewrite Hsc, Hc. cbn. split; discriminate.
    - now rewrite Hso. }
  assert (Hopen : forall x, x <> c -> is_open x w' = is_open x w)
    by (intros x Hx; unfold is_open; now rewrite Hso).
  constructor.
  - apply (emitter_tables_view w); [|assumption]. now repeat split.
  - constructor; intros ns n' x; cbn [w' nsps]; rewrite alter_alter_eq, lookup_alter.
    + destruct (decide ("/" = ns)) as [<-|]; [|rewrite Hauth; apply Hn1].
      destruct (nsps w !! "/") as [n|] eqn:Hns; cbn; [|discriminate].
      intros [= <-]. cbn.
      rewrite Hauth, elem_of_difference, !elem_of_union, elem_of_singleton.
      pose proof (Hn1 "/" n x Hns) as Hx.
      destruct (decide (x = c)) as [->|]; tauto.
    + destruct (decide ("/" = ns)) as [<-|].
      2:{ intros Hns Hin. destruct (decide (x = c)) as [->|Hx].
          - unfold is_open. now rewrite Hsc.
          - rewrite Hopen by assumption. exact (Hn2 ns n' x Hns Hin). }
      destruct (nsps w !! "/") as [n|] eqn:Hns; cbn; [|discriminate].
      intros [= <-]. cbn. rewrite elem_of_union, elem_of_singleton.
      destruct (decide (x = c)) as [->|Hx].
      * intros _. unfold is_open. now rewrite Hsc.
      * intros [?|Hin]; [contradiction|]. rewrite Hopen by assumption.
        exact (Hn2 "/" n x Hns Hin).
  - intros x j y. rewrite Hss. destruct (decide (x = c)) as [->|Hx].
    + unfold sessions_of. rewrite Hc. discriminate.
    + rewrite Hopen by assumption. apply Hf.
  - intros x s'. destruct (decide (x = c)) as [->|Hx].
    + rewrite Hsc. intros [= <-]. discriminate.
    + rewrite Hso by assumption. apply Ht.
Qed.

Lemma tables_invariant_NamespaceConnect ns c w :
  tables_invariant jwt_verify w ->
  tables_invariant jwt_verify
    (fst (process diff matches jwt_verify (NamespaceConnect ns c) w)).
Proof.
  intros Hinv. cbn [process]. unfold is_open, forbidNamespaceConnections.
  cbn [sockets with_nsps nsps].
  destruct (sockets w !! c) as [s|] eqn:Hc; [|assumption].
  destruct (open s) eqn:Hop; cbn [fst]; [|assumption].
  destruct Hinv as [He [Hn1 Hn2] Hf Ht].
  assert (Hcopen : is_open c w = true) by (unfold is_open; now rewrite Hc).
  destruct (authenticated s) eqn:Ha; cbn [negb]; constructor;
    try (apply (emitter_tables_view w); [now repeat split|assumption]);
    try exact Hf; try exact Ht.
  - assert (Hauth : authed w c) by (unfold authed; now rewrite Hc, <- Ha).
    constructor; intros ns' n' x; cbn [with_nsps nsps]; rewrite lookup_alter;
      (destruct (decide (ns = ns')) as [<-|]; [|solve [apply Hn1 | apply Hn2]]);
      (destruct (nsps w !! ns) as [n|] eqn:Hns; cbn; [|discriminate]);
      intros [= <-]; cbn.
    + change (authed (with_nsps (alter (ns_enter c) ns (nsps w)) w) x) with (authed w x).
      rewrite !elem_of_union, elem_of_singleton.
      pose proof (Hn1 ns n x Hns) as Hx.
      destruct (decide (x = c)) as [->|]; tauto.
    + rewrite elem_of_union, elem_of_singleton.
      change (is_open x (with_nsps (alter (ns_enter c) ns (nsps w)) w)) with (is_open x w).
      intros [->|Hin]; [assumption|]. exact (Hn2 ns n x Hns Hin).
  - assert (Hauth : ~ authed w c) by (unfold authed; rewrite Hc; cbn; congruence).
    constructor; intros ns' n' x; cbn [with_nsps nsps];
      rewrite alter_alter_eq, lookup_alter;
      (destruct (decide (ns = ns')) as [<-|]; [|solve [apply Hn1 | apply Hn2]]);
      (destruct (nsps w !! ns) as [n|] eqn:Hns; cbn; [|discriminate]);
      intros [= <-]; cbn.
    + match goal with |- _ <-> _ /\ authed ?w0 x => change (authed w0 x) with (authed w x) end.
      rewrite elem_of_difference, !elem_of_union, elem_of_singleton.
      pose proof (Hn1 ns n x Hns) as Hx.
      destruct (decide (x = c)) as [->|]; tauto.
    + rewrite elem_of_union, elem_of_singleton.
      match goal with |- _ -> is_open x ?w0 = true => change (is_open x w0) with (is_open x w) end.
      intros [->|Hin]; [assumption|]. exact (Hn2 ns n x Hns Hin).
Qed.

Lemma tables_invariant_Authenticate c payload w :
  tables_invariant jwt_verify w ->
  tables_invariant jwt_verify
    (fst (process diff matches jwt_verify (Authenticate c payload) w)).
Proof.
  intros Hinv. cbn [process]. destruct (is_open c w) eqn:Hopen; [|assumption].
  destruct (open_socket c w Hopen) as (s & Hc & Hop).
  unfold on_authenticate.
  destruct (destructurable payload); cbn [negb fst]; [|assumption].
  destruct (jwt_verify (get_field payload "token")) as [p|] eqn:Hv; cbn [fst].
  2:{ apply tables_invariant_perform. apply tables_invariant_update_socket; try easy.
      do 2 apply tables_invariant_perform.
      now apply tables_invariant_update_socket. }
  rewrite (world_frame w (socket_emit _ _ _)) by reflexivity.
  cbn [sockets nsps effects socket_emit perform with_effects restoreNamespaceConnection
       with_nsps onAuthentication update_socket with_sockets getState state].
  rewrite !alter_alter_eq.
  set (w' := World _ _ _ _ _ _ _ _).
  destruct Hinv as [He [Hn1 Hn2] Hf Ht].
  set (s' := Socket true (clearTimeout (authTimeout s)) (sessions s ++ [Some []]) (acks s)
                    true (Some (get_field payload "token")) (Some p)).
  assert (Hsc : sockets w' !! c = Some s').
  { cbn [w' sockets]. rewrite lookup_alter_eq, Hc. cbn.
    unfold s', set_sessions, set_authenticated, set_jwt, set_authTimeout. cbn.
    now rewrite Hop. }
  assert (Hso : forall x, x <> c -> sockets w' !! x = sockets w !! x)
    by (intros x Hx; cbn [w' sockets]; now rewrite lookup_alter_ne).
  assert (Hss : forall x, sessions_of x w'
                          = if decide (x = c) then sessions_of c w ++ [Some []]
                            else sessions_of x w).
  { intros x. unfold sessions_of. destruct (decide (x = c)) as [->|Hx].
    - now rewrite Hsc, Hc.
    - now rewrite Hso. }
  assert (Hnow : authed w' c) by (unfold authed; now rewrite Hsc).
  assert (Hauth : forall x, x <> c -> authed w' x <-> authed w x)
    by (intros x Hx; unfold authed; now rewrite Hso).
  assert (Hopen' : forall x, is_open x w' = is_open x w).
  { intros x. unfold is_open. destruct (decide (x = c)) as [->|Hx].
    - now rewrite Hsc, Hc.
    - now rewrite Hso. }
  constructor.
  - apply (emitter_tables_sessions w); try reflexivity; try assumption.
    + intros x j subs Hj. rewrite Hss. destruct (decide (x = c)) as [->|]; [|assumption].
      now apply lookup_app_l_Some.
    + intros x j subs. rewrite Hss. destruct (decide (x = c)) as [->|]; [|now left].
      rewrite lookup_app_Some. intros [Hj|[_ Hj]]; [now left|right].
      apply list_lookup_singleton_Some in Hj as [_ Hj]. congruence.
  - constructor; intros ns n' x; cbn [w' nsps]; rewrite lookup_fmap;
      (destruct (nsps w !! ns) as [n|] eqn:Hns; cbn; [|discriminate]); intros [= <-].
    + pose proof (Hn1 ns n x Hns) as Hx. pose proof (Hn1 ns n c Hns) as Hcc.
      destruct (bool_decide_reflect (c ∈ ns_sockets n)) as [Hin|Hout]; cbn.
      * rewrite elem_of_union, elem_of_singleton.
        destruct (decide (x = c)) as [->|Hne]; [tauto|].
        rewrite (Hauth x Hne). tauto.
      * destruct (decide (x = c)) as [->|Hne]; [tauto|].
        rewrite (Hauth x Hne). tauto.
    + rewrite Hopen'.
      destruct (bool_decide (c ∈ ns_sockets n)); cbn; apply (Hn2 ns n x Hns).
  - intros x j y. rewrite Hss, Hopen'. destruct (decide (x = c)) as [->|]; [|apply Hf].
    rewrite Hopen. rewrite lookup_app_Some. intros [Hj|[_ Hj]].
    + specialize (Hf c j y Hj). now rewrite Hopen in Hf.
    + apply list_lookup_singleton_Some in Hj as [_ <-]. discriminate.
  - intros x sx. destruct (decide (x = c)) as [->|Hx].
    + rewrite Hsc. intros [= <-] _. exists (get_field payload "token"), p. now repeat split.
    + rewrite Hso by assumption. apply Ht.
Qed.

Lemma tables_invariant_Timeout c w :
  tables_invariant jwt_verify w ->
  tables_invariant jwt_verify (fst (process diff matches jwt_verify (Timeout c) w)).
Proof.
  intros Hinv. cbn [process]. destruct (sockets w !! c) as [s|]; [|assumption].
  destruct (authTimeout s); cbn [fst]; try assumption.
  unfold on_timeout. apply tables_invariant_perform.
  now do 2 (apply tables_invariant_update_socket; try easy).
Qed.

Lemma tables_invariant_Acknowledge c w :
  tables_invariant jwt_verify w ->
  tables_invariant jwt_verify (fst (process diff matches jwt_verify (Acknowledge c) w)).
Proof.
  intros Hinv. cbn [process]. destruct (sockets w !! c) as [s|] eqn:Hc; [|assumption].
  destruct (acks s) as [|n]; [assumption|].
  destruct (open s) eqn:Hop; [|assumption].
  apply tables_invariant_close.
  - unfold is_open. cbn [perform with_effects update_socket with_sockets sockets].
    now rewrite lookup_alter_eq, Hc.
  - apply tables_invariant_perform. now apply tables_invariant_update_socket.
Qed.

(** Every step of the server keeps the tables. *)
Lemma tables_invariant_process e w :
  tables_invariant jwt_verify w ->
  tables_invariant jwt_verify (fst (process diff matches jwt_verify e w)).
Proof.
  intros Hinv.
  destruct e as [c|ns c|c payload|c payload|c name|c name|c|c|c|ns name data
                |id r v|key data|name n|name data].
  - now apply tables_invariant_Connect.
  - now apply tables_invariant_NamespaceConnect.
  - now apply tables_invariant_Authenticate.
  - cbn [process]. destruct (is_open c w); [|assumption].
    apply for_each_inv; [|assumption].
    intros i w0. apply tables_invariant_same_tables, same_tables_on_action.
  - cbn [process]. destruct (is_open c w); [|assumption].
    apply for_each_inv; [|assumption]. intros i w0. apply tables_invariant_on_subscribe.
  - cbn [process]. destruct (is_open c w); [|assumption].
    apply for_each_inv; [|assumption]. intros i w0. apply tables_invariant_on_unsubscribe.
  - now apply tables_invariant_Acknowledge.
  - cbn [process]. destruct (is_open c w) eqn:Hopen; [|assumption].
    now apply tables_invariant_close.
  - now apply tables_invariant_Timeout.
  - revert Hinv. apply tables_invariant_same_tables, same_tables_Broadcast.
  - revert Hinv. apply tables_invariant_same_tables, same_tables_registerReducer.
  - revert Hinv. apply tables_invariant_same_tables, same_tables_callAction.
  - now apply tables_invariant_ServiceSubscribe.
  - revert Hinv. apply tables_invariant_same_tables, same_tables_emitEvent.
Qed.

Lemma tables_invariant_init initial names :
  tables_invariant jwt_verify (init initial names).
Proof.
  constructor.
  - constructor; cbn [init any_listeners on_listeners next_listener app].
    + intros l [].
    + intros l [].
    + intros l [].
    + intros l c [].
    + intros c i subs. unfold sessions_of. cbn [init sockets]. now rewrite lookup_empty.
    + intros c i subs k. unfold sessions_of. cbn [init sockets]. now rewrite lookup_empty.
  - constructor; intros ns n c Hn; cbn [init nsps] in Hn;
      apply lookup_gset_to_gmap_Some in Hn as [_ <-]; cbn.
    + split; [intros Hc|intros [Hc _]]; now apply not_elem_of_empty in Hc.
    + intros Hc. now apply not_elem_of_empty in Hc.
  - intros c i x. unfold sessions_of. cbn [init sockets]. now rewrite lookup_empty.
  - intros c s. cbn [init sockets]. now rewrite lookup_empty.
Qed.

(** The tables are as described in every state the server reaches. *)
Lemma reachable_tables_invariant initial names es :
  tables_invariant jwt_verify (run diff matches jwt_verify es (init initial names)).
Proof.
  induction es as [|e es IH] using rev_ind; [apply tables_invariant_init|].
  rewrite run_snoc. now apply tables_invariant_process.
Qed.

Lemma filter_keep_all {A} (f : A -> bool) (l : list A) :
  (forall x, In x l -> f x = true) -> List.filter f l = l.
Proof.
  induction l as [|a l IH]; cbn [List.filter]; [reflexivity|].
  intros H. rewrite (H a) by now left. f_equal. apply IH. intros x Hx. apply H. now right.
Qed.

Lemma in_subscriptions_added name h (subs : subscriptions) :
  in_subscriptions name (subs ++ [(name, h)]) = true.
Proof.
  unfold in_subscriptions. rewrite existsb_app. cbn [existsb fst].
  now rewrite String.eqb_refl, orb_true_r.
Qed.

Lemma delete_handle_added name h (subs : subscriptions) :
  in_subscriptions name subs = false -> delete_handle name (subs ++ [(name, h)]) = subs.
Proof.
  intros Hin. unfold delete_handle. rewrite List.filter_app. cbn [List.filter fst].
  rewrite String.eqb_refl. cbn [negb]. rewrite app_nil_r.
  apply filter_keep_all. intros [k h'] Hp. cbn [fst].
  destruct (String.eqb k name) eqn:E; [|reflexivity].
  apply String.eqb_eq in E as ->. exfalso.
  apply (not_in_subscriptions name subs Hin). apply in_map_iff. now exists (name, h').
Qed.

Lemma callAction_messages key data w c m :
  In (SocketEmit c m) (effects (fst (callAction diff matches key data w))) ->
  In (SocketEmit c m) (effects w)
  \/ exists l, In l (any_listeners w ++ on_listeners w) /\ target (l_callback l) = Some c.
Proof.
  destruct key;
    try (unfold callAction; cbn [call_toUpperCase]; destruct (template_ok _); cbn [negb fst];
         [|now left]; cbn [perform with_effects effects]; rewrite in_app_iff;
         intros [?|[?|[]]]; [now left|discriminate]).
  rewrite callAction_string. cbn zeta.
  destruct (actions w !! toUpperCase s) as [a|]; [destruct (truthy (validate a data))|];
    cbn [fst with_effects with_state effects]; rewrite !in_app_iff; cbn [In].
  - intros [?|[[?|[?|[]]]|Hin]]; try discriminate; [now left|right].
    now apply dispatch_publishes_target in Hin.
  - intros [?|[?|[?|[]]]]; try discriminate. now left.
  - intros [?|[?|[?|[]]]]; try discriminate. now left.
Qed.

(** X10.  Once a socket is closed, the [disconnect] handlers of the
    gateway have removed every relay it had: in every state the server
    reaches, no listener in the emitter emits to a socket that is not open,
    so that neither [emitEvent] nor the publishes of [callAction] send it
    anything. *)
Theorem closed_socket_gets_no_publish initial names es c :
  let w := run diff matches jwt_verify es (init initial names) in
  is_open c w = false ->
  (forall l, In l (any_listeners w ++ on_listeners w) -> target (l_callback l) <> Some c)
  /\ (forall topic data m,
        In (SocketEmit c m) (effects (emitEvent matches topic data w)) ->
        In (SocketEmit c m) (effects w))
  /\ (forall key data m,
        In (SocketEmit c m) (effects (fst (callAction diff matches key data w))) ->
        In (SocketEmit c m) (effects w)).
Proof.
  cbn zeta. intros Hclosed.
  destruct (reachable_tables_invariant initial names es) as [[_ _ _ H4 _ _] _ Hf _].
  set (w := run diff matches jwt_verify es (init initial names)) in *.
  assert (Hno : forall l, In l (any_listeners w ++ on_listeners w) ->
                          target (l_callback l) <> Some c).
  { intros l Hl Ht. destruct (H4 l c Hl Ht) as (i & subs & Hi & _).
    specialize (Hf c i _ Hi). rewrite Hclosed in Hf. discriminate. }
  split; [exact Hno|]. split.
  - intros topic data m. unfold emitEvent. rewrite emit_eq.
    cbn [with_effects effects]. rewrite in_app_iff. intros [Hin|Hin]; [assumption|].
    apply publish_target in Hin as (l & Hl & Ht). now destruct (Hno l Hl).
  - intros key data m Hin.
    apply callAction_messages in Hin as [Hin|(l & Hl & Ht)]; [assumption|].
    now destruct (Hno l Hl).
Qed.

(** X11.  [forbidNamespaceConnections] and [restoreNamespaceConnection]
    keep the [connected] table of the root namespace, on which the gate
    listens for connections, equal to the authenticated part of its
    [sockets] table: in every state the server reaches, a socket is in
    [connected] exactly when it is in [sockets] and authenticated, so that
    [restoreNamespaceConnection] puts back what
    [forbidNamespaceConnections] took out; and the sockets of the namespace
    are open. *)
Theorem connected_are_authenticated_members initial names es n c :
  let w := run diff matches jwt_verify es (init initial names) in
  nsps w !! "/" = Some n ->
  (c ∈ ns_connected n <-> c ∈ ns_sockets n /\ authed w c)
  /\ (c ∈ ns_sockets n -> is_open c w = true).
Proof.
  cbn zeta. intros Hn.
  destruct (reachable_tables_invariant initial names es) as [_ [H1 H2] _ _].
  split; [exact (H1 "/" n c Hn)|exact (H2 "/" n c Hn)].
Qed.

(** X12.  The token and the payload an authenticated socket carries are a
    token that [jwt.verify] accepted and the payload it gave for it, in
    every state the server reaches ([jwt.verify] being a function of the
    token); a later [authenticate] with a token that does not verify does
    not replace them. *)
Theorem authenticated_socket_token_verifies initial names es c :
  let w := run diff matches jwt_verify es (init initial names) in
  authed w c ->
  exists s token payload,
    sockets w !! c = Some s /\ jwt s = Some token /\ jwtPayload s = Some payload
    /\ jwt_verify token = Some payload.
Proof.
  cbn zeta. intros Hc.
  destruct (reachable_tables_invariant initial names es) as [_ _ _ Ht].
  unfold authed in Hc.
  destruct (sockets _ !! c) as [s|] eqn:Hs; [|discriminate].
  injection Hc as Ha.
  destruct (Ht c s Hs Ha) as (token & payload & H1 & H2 & H3).
  exists s, token, payload. now repeat split.
Qed.

(** X13.  No relay is lost: in every state the server reaches, a relay in
    the emitter belongs to an open, authenticated socket, and a
    [subscriptions] object of that socket holds, under the event of the
    relay, the handle that removes it, so that an [unsubscribe] of the
    client for that event, or its [disconnect], takes the relay out. *)
Theorem relay_has_unsubscribe_handle initial names es l c :
  let w := run diff matches jwt_verify es (init initial names) in
  In l (any_listeners w ++ on_listeners w) -> target (l_callback l) = Some c ->
  is_open c w = true /\ authed w c
  /\ exists i subs, session_of c i w = Some (Some subs)
                    /\ lookup_handle (l_event l) subs = Some (l_id l).
Proof.
  cbn zeta. intros Hl Ht.
  destruct (reachable_tables_invariant initial names es) as [[_ _ _ H4 H5 _] _ Hf _].
  destruct (reachable_gate_invariant diff matches jwt_verify initial names es)
    as [[_ G2 _ _] _].
  set (w := run diff matches jwt_verify es (init initial names)) in *.
  destruct (H4 l c Hl Ht) as (i & subs & Hi & Hp).
  split; [|split].
  - specialize (Hf c i _ Hi). destruct (is_open c w); [reflexivity|discriminate].
  - now apply (G2 l c).
  - exists i, subs. rewrite session_of_sessions_of. split; [assumption|].
    apply lookup_handle_NoDup; [|assumption]. now apply (H5 c i).
Qed.

(** X14.  A second [subscribe] message for an event changes nothing: the
    handler of a run of the gateway callback, run again for the same event
    on the state it left, returns that state, with the outcome the first
    run had, so that a client has at most one relay per event and run. *)
Theorem subscribe_twice_registers_once c name i w :
  let w1 := fst (on_subscribe c name i w) in
  on_subscribe c name i w1 = (w1, snd (on_subscribe c name i w)).
Proof.
  cbn zeta.
  destruct (session_of c i w) as [[subs|]|] eqn:Hs.
  2,3: unfold on_subscribe; rewrite Hs; cbn [fst snd]; now rewrite Hs.
  destruct (in_subscriptions name subs) eqn:Hin.
  { unfold on_subscribe. rewrite Hs, Hin. cbn [fst snd]. now rewrite Hs, Hin. }
  destruct (on_subscribe_tables c name i w subs Hs Hin) as (_ & _ & _ & Hss).
  cbn zeta in Hss.
  assert (Hr : snd (on_subscribe c name i w) = Returned).
  { unfold on_subscribe. rewrite Hs, Hin.
    now destruct (subscribe name _ _). }
  rewrite Hr.
  set (w1 := fst (on_subscribe c name i w)) in *.
  assert (Hs1 : session_of c i w1 = Some (Some (subs ++ [(name, next_listener w)]))).
  { rewrite session_of_sessions_of, Hss, decide_True by reflexivity.
    apply list_lookup_insert_eq. rewrite session_of_sessions_of in Hs.
    eapply lookup_lt_Some. exact Hs. }
  unfold on_subscribe. now rewrite Hs1, in_subscriptions_added.
Qed.

(** X15.  An [unsubscribe] undoes a [subscribe]: in a state the server
    has reached, when a run of the gateway callback subscribes its client to
    an event it is not subscribed to and then unsubscribes it, the listeners
    of the emitter and the [subscriptions] objects are what they were. *)
Theorem unsubscribe_undoes_subscribe initial names es c name i subs :
  let w := run diff matches jwt_verify es (init initial names) in
  session_of c i w = Some (Some subs) -> in_subscriptions name subs = false ->
  let w2 := fst (on_unsubscribe c name i (fst (on_subscribe c name i w))) in
  any_listeners w2 = any_listeners w /\ on_listeners w2 = on_listeners w
  /\ forall c', sessions_of c' w2 = sessions_of c' w.
Proof.
  cbn zeta. intros Hs Hin.
  destruct (reachable_tables_invariant initial names es) as [He _ _ _].
  set (w := run diff matches jwt_verify es (init initial names)) in *.
  pose proof (emitter_tables_on_subscribe c name i w He) as He1.
  destruct (on_subscribe_tables c name i w subs Hs Hin) as (Hn1 & Ha1 & Ho1 & Hss1).
  cbn zeta in Hn1, Ha1, Ho1, Hss1.
  set (w1 := fst (on_subscribe c name i w)) in *.
  set (h := next_listener w) in *.
  set (l0 := Listener h name _) in *.
  rewrite session_of_sessions_of in Hs.
  assert (Hi : i < length (sessions_of c w)) by (eapply lookup_lt_Some; exact Hs).
  assert (Hs1 : session_of c i w1 = Some (Some (subs ++ [(name, h)]))).
  { rewrite session_of_sessions_of, Hss1, decide_True by reflexivity.
    now apply list_lookup_insert_eq. }
  assert (Hl1 : lookup_handle name (subs ++ [(name, h)]) = Some h).
  { apply lookup_handle_NoDup.
    - apply (keys_distinct w1 He1 c i). now rewrite <- session_of_sessions_of.
    - apply in_app_iff. right. now left. }
  destruct (on_unsubscribe_tables c name i w1 _ h Hs1 (in_subscriptions_added name h subs) Hl1)
    as (_ & Ha2 & Ho2 & Hss2).
  cbn zeta in Ha2, Ho2, Hss2.
  set (w2 := fst (on_unsubscribe c name i w1)) in *.
  assert (Hold : forall l, In l (any_listeners w ++ on_listeners w) ->
                           negb (Nat.eqb (l_id l) h) = true).
  { intros l Hl. pose proof (ids_below_next w He l Hl) as Hlt. fold h in Hlt.
    apply negb_true_iff, Nat.eqb_neq. lia. }
  split; [|split].
  - rewrite Ha2, Ha1. destruct (String.eqb name "*"); [|reflexivity].
    rewrite List.filter_app. cbn [List.filter l0 l_id]. rewrite Nat.eqb_refl. cbn [negb].
    rewrite app_nil_r. apply filter_keep_all. intros l Hl. apply Hold.
    apply in_app_iff. now left.
  - rewrite Ho2, Ho1. destruct (String.eqb name "*"); [reflexivity|].
    rewrite List.filter_app. cbn [List.filter l0 l_id l_event].
    rewrite Nat.eqb_refl, String.eqb_refl. cbn [negb orb].
    rewrite app_nil_r. apply filter_keep_all. intros l Hl. rewrite Hold; [reflexivity|].
    apply in_app_iff. now right.
  - intros c'. rewrite Hss2, !Hss1. destruct (decide (c = c')) as [<-|]; [|reflexivity].
    rewrite decide_True by reflexivity.
    rewrite list_insert_insert_eq, delete_handle_added by assumption.
    now apply list_insert_id.
Qed.












(** X24.  Nothing keeps a socket from authenticating again: every
    [authenticate] message with a token that verifies, also on a socket
    that is authenticated already, runs the gateway callback once more,
    which adds a new, empty [subscriptions] object and with it one more
    handler for each of [action], [subscribe], [unsubscribe] and
    [disconnect]. *)
Theorem every_authentication_adds_handlers c payload p w :
  is_open c w = true -> destructurable payload = true ->
  jwt_verify (get_field payload "token") = Some p ->
  let w' := fst (process diff matches jwt_verify (Authenticate c payload) w) in
  sessions_of c w' = sessions_of c w ++ [Some []] /\ authed w' c.
Proof.
  intros Hopen Hd Hv. cbn zeta. cbn [process]. rewrite Hopen.
  destruct (open_socket c w Hopen) as (s & Hc & Hop).
  unfold on_authenticate. rewrite Hd, Hv. cbn [negb fst].
  rewrite (world_frame w (socket_emit _ _ _)) by reflexivity.
  cbn [sockets nsps effects socket_emit perform with_effects restoreNamespaceConnection
       with_nsps onAuthentication update_socket with_sockets getState state].
  rewrite !alter_alter_eq.
  unfold sessions_of, authed. cbn [sockets]. rewrite lookup_alter_eq, Hc. now split.
Qed.



End Tables.

Lemma closed_socket_gets_no_publish_witness :
  let w := serve closed_run in
  is_open "c1" w = false
  /\ forall topic data m,
       In (SocketEmit "c1" m) (effects (emitEvent exact_topic topic data w)) ->
       In (SocketEmit "c1" m) (effects w).
Proof.
  cbv zeta.
  assert (H : is_open "c1" (serve closed_run) = false) by (vm_compute; reflexivity).
  split; [exact H|].
  exact (proj1 (proj2 (closed_socket_gets_no_publish DiffEngine exact_topic one_token
                         _ _ closed_run "c1" H))).
Defined.

Lemma connected_are_authenticated_members_witness :
  let w := serve two_clients_run in
  let n := Namespace {["c1"; "c2"]} {["c1"]} in
  nsps w !! "/" = Some n
  /\ ("c2" ∈ ns_connected n <-> "c2" ∈ ns_sockets n /\ authed w "c2").
Proof.
  cbv zeta.
  assert (H : nsps (serve two_clients_run) !! "/" = Some (Namespace {["c1"; "c2"]} {["c1"]}))
    by (vm_compute; reflexivity).
  split; [exact H|].
  exact (proj1 (connected_are_authenticated_members DiffEngine exact_topic one_token
                  _ _ two_clients_run _ "c2" H)).
Defined.

Lemma authenticated_socket_token_verifies_witness :
  let w := serve session_run in
  authed w "c1"
  /\ exists s token payload,
       sockets w !! "c1" = Some s /\ jwt s = Some token /\ jwtPayload s = Some payload
       /\ one_token token = Some payload.
Proof.
  cbv zeta.
  assert (H : authed (serve session_run) "c1") by (vm_compute; reflexivity).
  split; [exact H|].
  exact (authenticated_socket_token_verifies DiffEngine exact_topic one_token
           _ _ session_run "c1" H).
Defined.

Lemma relay_has_unsubscribe_handle_witness :
  let w := serve session_run in
  let l := Listener 0 "update" (relaySingleEvent "c1" "update") in
  In l (any_listeners w ++ on_listeners w)
  /\ is_open "c1" w = true
  /\ exists i subs, session_of "c1" i w = Some (Some subs)
                    /\ lookup_handle "update" subs = Some 0.
Proof.
  cbv zeta.
  assert (H : In (Listener 0 "update" (relaySingleEvent "c1" "update"))
                 (any_listeners (serve session_run) ++ on_listeners (serve session_run)))
    by (vm_compute; left; reflexivity).
  split; [exact H|].
  destruct (relay_has_unsubscribe_handle DiffEngine exact_topic one_token
              _ _ session_run _ "c1" H eq_refl) as (Ho & _ & Hh).
  split; [exact Ho|exact Hh].
Defined.

Lemma unsubscribe_undoes_subscribe_witness :
  let w := serve session_run in
  let w2 := fst (on_unsubscribe "c1" "action:X" 0 (fst (on_subscribe "c1" "action:X" 0 w))) in
  session_of "c1" 0 w = Some (Some [("update", 0)])
  /\ on_listeners w2 = on_listeners w.
Proof.
  cbv zeta.
  assert (H : session_of "c1" 0 (serve session_run) = Some (Some [("update", 0)]))
    by (vm_compute; reflexivity).
  split; [exact H|].
  exact (proj1 (proj2 (unsubscribe_undoes_subscribe DiffEngine exact_topic one_token
                         _ _ session_run "c1" "action:X" 0 _ H eq_refl))).
Defined.



Lemma every_authentication_adds_handlers_witness :
  let w := serve session_run in
  is_open "c1" w = true
  /\ authed w "c1"
  /\ sessions_of "c1"
       (fst (process DiffEngine exact_topic one_token
               (Authenticate "c1" (credentials "valid")) w))
     = sessions_of "c1" w ++ [Some []].
Proof.
  cbv zeta.
  assert (H : is_open "c1" (serve session_run) = true) by (vm_compute; reflexivity).
  split; [exact H|]. split; [vm_compute; reflexivity|].
  exact (proj1 (every_authentication_adds_handlers DiffEngine exact_topic one_token
                  "c1" (credentials "valid") _ (serve session_run) H eq_refl eq_refl)).
Defined.



(** ** app/http/auth.js: the session *)

Section Sessions.

Variable jwt_verify : value -> option value.

Lemma browse_snoc rs r s :
  browse jwt_verify (rs ++ [r]) s = fst (route jwt_verify r (browse jwt_verify rs s)).
Proof. unfold browse. now rewrite fold_left_app. Qed.

(** X19.  The session never holds a token that was not verified: whatever
    requests a browser makes to [/auth/login], [/auth/callback] and
    [/auth/logout], starting from a new session, [session.jwt] is missing or
    is a token [jwt.verify] accepts, so that the extractor hands the
    strategy [null] or such a token. *)
Theorem session_token_is_verified rs :
  let s := browse jwt_verify rs fresh_session in
  (session_jwt s = VUndefined \/ exists payload, jwt_verify (session_jwt s) = Some payload)
  /\ (jwtFromRequest (Some s) = VNull
      \/ exists payload, jwt_verify (jwtFromRequest (Some s)) = Some payload).
Proof.
  cbn zeta.
  assert (H : session_jwt (browse jwt_verify rs fresh_session) = VUndefined
              \/ exists payload,
                   jwt_verify (session_jwt (browse jwt_verify rs fresh_session))
                   = Some payload).
  { induction rs as [|r rs IH] using rev_ind; [now left|].
    rewrite browse_snoc. destruct r as [u|t|]; cbn [route].
    - exact IH.
    - unfold auth_callback. destruct (jwt_verify t) as [p|] eqn:Ht; cbn [fst]; [|exact IH].
      right. now exists p.
    - now left. }
  split; [exact H|].
  cbn [jwtFromRequest]. destruct (truthy _) eqn:E; [|now left].
  destruct H as [H|H]; [|now right]. rewrite H in E. discriminate.
Qed.

Lemma browse_failed_callbacks failed s :
  Forall (fun t => jwt_verify t = None) failed ->
  browse jwt_verify (map GET_auth_callback failed) s = s.
Proof.
  induction 1 as [|t failed Ht _ IH]; [reflexivity|].
  cbn [map]. unfold browse in *. cbn [fold_left route]. unfold auth_callback.
  rewrite Ht. exact IH.
Qed.

(** X20.  The callback returns the browser to where the login was asked
    from, once: after [/auth/login?redirect_url=u], and after any callbacks
    whose token did not verify, a callback with a token that verifies
    redirects to [u], or to [/] when [u] is missing or empty; it takes
    [redirectUrl] out of the session, so that the same callback made again
    redirects to [/]. *)
Theorem callback_returns_to_login_target url token payload failed s :
  jwt_verify token = Some payload ->
  Forall (fun t => jwt_verify t = None) failed ->
  let s1 := browse jwt_verify (GET_auth_login url :: map GET_auth_callback failed) s in
  snd (auth_callback jwt_verify token s1)
  = redirect (if truthy url then url else VString "/")
  /\ session_jwt (fst (auth_callback jwt_verify token s1)) = token
  /\ snd (auth_callback jwt_verify token (fst (auth_callback jwt_verify token s1)))
     = redirect (VString "/").
Proof.
  intros Ht Hf. cbn zeta.
  change (browse jwt_verify (GET_auth_login url :: map GET_auth_callback failed) s)
    with (browse jwt_verify (map GET_auth_callback failed) (fst (auth_login url s))).
  rewrite (browse_failed_callbacks failed _ Hf).
  unfold auth_callback. rewrite Ht. cbn. now repeat split.
Qed.

End Sessions.

Lemma callback_returns_to_login_target_witness :
  let s1 := browse one_token
              [GET_auth_login (VString "/dashboard"); GET_auth_callback (VString "forged")]
              fresh_session in
  one_token (VString "valid") = Some (VObject [("user", VString "admin")])
  /\ snd (auth_callback one_token (VString "valid") s1) = redirect (VString "/dashboard").
Proof.
  cbv zeta. split; [reflexivity|].
  exact (proj1 (callback_returns_to_login_target one_token (VString "/dashboard")
                  (VString "valid") _ [VString "forged"] fresh_session eq_refl
                  (@List.Forall_cons _ _ (VString "forged") [] eq_refl (@List.Forall_nil _ _)))).
Defined.

(** ** app/state/actions/index.js: the module of an action *)

Lemma path_of_upper_ascii c :
  lower_ascii (if Ascii.eqb (if Ascii.eqb (upper_ascii c) ":" then "/"%char
                             else upper_ascii c) "_"
               then "-"%char
               else if Ascii.eqb (upper_ascii c) ":" then "/"%char else upper_ascii c)
  = lower_ascii (if Ascii.eqb (if Ascii.eqb c ":" then "/"%char else c) "_"
                 then "-"%char
                 else if Ascii.eqb c ":" then "/"%char else c).
Proof. destruct c as [[] [] [] [] [] [] [] []]; reflexivity. Qed.

Lemma path_of_path c :
  let p := lower_ascii (if Ascii.eqb (if Ascii.eqb c ":" then "/"%char else c) "_"
                        then "-"%char
                        else if Ascii.eqb c ":" then "/"%char else c) in
  path_character p = true
  /\ lower_ascii (if Ascii.eqb (if Ascii.eqb p ":" then "/"%char else p) "_"
                  then "-"%char
                  else if Ascii.eqb p ":" then "/"%char else p) = p.
Proof. destruct c as [[] [] [] [] [] [] [] []]; split; reflexivity. Qed.

(** X21.  The module of an action does not depend on the case its id is
    written in: for an id of ASCII characters [actionIdToPath] gives the
    same path for the id and for the id in capitals, which is the form
    [callAction] looks up. *)
Theorem actionIdToPath_ignores_case actionId :
  actionIdToPath (toUpperCase actionId) = actionIdToPath actionId.
Proof.
  unfold actionIdToPath. induction actionId as [|c s IH]; [reflexivity|].
  cbn [toUpperCase replace_all toLowerCase]. now rewrite IH, path_of_upper_ascii.
Qed.

(** X22.  A path made by [actionIdToPath] has no [:], no [_] and no capital
    letter, and [actionIdToPath] leaves such a path as it is. *)
Theorem actionIdToPath_normal_form actionId :
  forallb path_character (chars (actionIdToPath actionId)) = true
  /\ actionIdToPath (actionIdToPath actionId) = actionIdToPath actionId.
Proof.
  unfold actionIdToPath, chars. induction actionId as [|c s [IH1 IH2]]; [now split|].
  cbn [replace_all toLowerCase list_ascii_of_string forallb].
  destruct (path_of_path c) as [H1 H2]. cbn zeta in H1, H2.
  rewrite H1, H2, IH1, IH2. now split.
Qed.

(** X23.  The exported object has every listed action, with the module at
    the path of its id: for every list of ids, the reduce maps each id of
    the list to [require] of [./] followed by [actionIdToPath] of the id,
    also when the id is listed more than once. *)
Theorem every_action_has_its_module ids id :
  In id ids ->
  lookup_prop id (modules_of ids) = Some (VString ("./" +:+ actionIdToPath id)).
Proof.
  unfold modules_of. induction ids as [|a ids IH] using rev_ind; [intros []|].
  rewrite fold_left_app. cbn [fold_left]. intros Hin.
  destruct (String.eqb_spec a id) as [->|Hne].
  - apply lookup_prop_assign_prop_eq.
  - rewrite lookup_prop_assign_prop_ne by assumption. apply IH.
    apply in_app_iff in Hin as [Hin|[Hin|[]]]; [assumption|contradiction].
Qed.

Lemma every_action_has_its_module_witness :
  In "SPOTIFY:UPDATE-TOKEN" rawActions
  /\ lookup_prop "SPOTIFY:UPDATE-TOKEN" (modules_of rawActions)
     = Some (VString "./spotify/update-token").
Proof.
  assert (H : In "SPOTIFY:UPDATE-TOKEN" rawActions) by (cbn; tauto).
  split; [exact H|].
  exact (every_action_has_its_module rawActions "SPOTIFY:UPDATE-TOKEN" H).
Defined.
